(** * mp3_combiner: a shallow embedding of [mp3_combiner.py]

    The script lists the MP3 files of a folder, lets the user reorder them
    with a raw-mode keyboard loop, and concatenates them with three seconds
    of silence between tracks.  The embedding follows the script top to
    bottom: the file lister, the list editor driven by the keyboard loop,
    the combine pass, and the [try]/[finally] that restores the terminal. *)

From Stdlib Require Import ZArith NArith Ascii String Lia.
From stdpp Require Import base tactics option list numbers strings sorting sets.

Local Open Scope Z_scope.

(** ** Python strings

    File names and key presses are Python [str] values.  They are modelled as
    strings of 8-bit characters; [lower] folds the ASCII capitals, which is
    all that a comparison with the ASCII suffix [.mp3] can observe. *)

Definition lower_char (c : ascii) : ascii :=
  let n := N_of_ascii c in
  if ((65 <=? n) && (n <=? 90))%N then ascii_of_N (n + 32) else c.

Fixpoint lower (s : string) : string :=
  match s with
  | EmptyString => EmptyString
  | String c s' => String (lower_char c) (lower s')
  end.

(** [s.endswith(suffix)] *)
Definition endswith (s suffix : string) : bool :=
  let n := String.length s in
  let m := String.length suffix in
  (m <=? n)%nat && String.eqb (substring (n - m) m s) suffix.

(** ** FileLister: [list_mp3_files] (lines 21-40)

    [all_items] is the result of [os.listdir(folder_path)].  [sorted] on a
    list of [str] orders them lexicographically by character code, which is
    [String.le] (see [string_le_cons]); it is modelled by stdpp's merge sort,
    and any sort gives the same list (see [sorted_unique]). *)

Definition is_mp3 (file : string) : bool := endswith (lower file) ".mp3".

Definition sorted (l : list string) : list string := merge_sort String.le l.

Definition list_mp3_files (all_items : list string) : list string :=
  let mp3_files := filter (λ file, is_mp3 file = true) all_items in
  let sorted_mp3_files := sorted mp3_files in
  sorted_mp3_files.

(** ** Python lists

    [mp3_files] is a Python list indexed by integers: an index [i] with
    [0 <= i < len] names position [i], one with [-len <= i < 0] names position
    [len + i], and any other raises [IndexError] (here [None]). *)

Definition len {A} (l : list A) : Z := Z.of_nat (length l).

Definition py_index {A} (l : list A) (i : Z) : option nat :=
  if (0 <=? i) && (i <? len l) then Some (Z.to_nat i)
  else if (- len l <=? i) && (i <? 0) then Some (Z.to_nat (len l + i))
  else None.

Definition getitem {A} (l : list A) (i : Z) : option A :=
  k ← py_index l i; l !! k.

Definition setitem {A} (l : list A) (i : Z) (x : A) : option (list A) :=
  k ← py_index l i; Some (<[k:=x]> l).

(** [l[i], l[j] = l[j], l[i]]: the right-hand side is read first, then the
    two targets are assigned from left to right. *)
Definition swap_items {A} (l : list A) (i j : Z) : option (list A) :=
  x ← getitem l j;
  y ← getitem l i;
  l1 ← setitem l i x;
  setitem l1 j y.

(** ** The list editor

    The three variables the interactive loop mutates. *)

Record editor := Editor {
  mp3_files : list string;
  focused_index : Z;
  selected_index : option Z
}.

Definition initial (files : list string) : editor :=
  {| mp3_files := files; focused_index := 0; selected_index := None |}.

(** Up arrow: the body of [if arrow_key == 'A'] (lines 166-178). *)
Definition arrow_up (st : editor) : option editor :=
  match selected_index st with
  | Some sel =>
      if sel >? 0 then
        files ← swap_items (mp3_files st) sel (sel - 1);
        Some {| mp3_files := files;
                focused_index := sel - 1;
                selected_index := Some (sel - 1) |}
      else Some st
  | None =>
      Some {| mp3_files := mp3_files st;
              focused_index := Z.max 0 (focused_index st - 1);
              selected_index := None |}
  end.

(** Down arrow: the body of [elif arrow_key == 'B'] (lines 180-192). *)
Definition arrow_down (st : editor) : option editor :=
  match selected_index st with
  | Some sel =>
      if sel <? len (mp3_files st) - 1 then
        files ← swap_items (mp3_files st) sel (sel + 1);
        Some {| mp3_files := files;
                focused_index := sel + 1;
                selected_index := Some (sel + 1) |}
      else Some st
  | None =>
      Some {| mp3_files := mp3_files st;
              focused_index := Z.min (len (mp3_files st) - 1) (focused_index st + 1);
              selected_index := None |}
  end.

(** Enter: the body of [elif char == '\r' or char == '\n'] (lines 196-201). *)
Definition enter (st : editor) : editor :=
  match selected_index st with
  | None =>
      {| mp3_files := mp3_files st;
         focused_index := focused_index st;
         selected_index := Some (focused_index st) |}
  | Some _ =>
      {| mp3_files := mp3_files st;
         focused_index := focused_index st;
         selected_index := None |}
  end.

(** The commands a key press stands for, and their effect on the editor.
    [Combine] and [Quit] leave the loop and do not touch the editor.  The
    script has no such type: it branches on the characters read.  The loop
    body below is transcribed as it stands, and [iteration_spec] shows that
    it is [next_command] followed by [apply_command]. *)
Inductive command := MoveUp | MoveDown | TogglePick | Combine | Quit | Ignore.

Definition apply_command (c : command) (st : editor) : option editor :=
  match c with
  | MoveUp => arrow_up st
  | MoveDown => arrow_down st
  | TogglePick => Some (enter st)
  | Combine | Quit | Ignore => Some st
  end.

Definition terminal (c : command) : bool :=
  match c with Combine | Quit => true | _ => false end.

(** The editor after a sequence of commands; the loop stops at the first
    [Combine] or [Quit]. *)
Fixpoint run_commands (cs : list command) (st : editor) : option editor :=
  match cs with
  | [] => Some st
  | c :: cs' =>
      if terminal c then Some st
      else st' ← apply_command c st; run_commands cs' st'
  end.

(** ** The audio collaborator (pydub)

    An [AudioSegment] is modelled by what was concatenated into it: decoded
    tracks and generated silence, each with its length in whole
    milliseconds.  [+] is concatenation.  [audio_len] stands for [len] only
    in the test [len(combined_audio) > 0]: pydub rounds the length of the
    whole segment, so lengths do not add up exactly, but a segment holding a
    gap of three seconds has a positive length and one holding a single
    track has the length of that track, which are the only cases the test
    meets. *)

Inductive piece :=
  | Track (name : string) (ms : N)
  | Silence (ms : N).

Abbreviation AudioSegment := (list piece).

Definition piece_len (p : piece) : Z :=
  match p with Track _ ms => Z.of_N ms | Silence ms => Z.of_N ms end.

Definition audio_len (a : AudioSegment) : Z :=
  foldr (λ p acc, piece_len p + acc) 0 a.

Definition empty_audio : AudioSegment := [].

Definition generate_silence (duration_ms : N) : AudioSegment := [Silence duration_ms].

Definition is_track (p : piece) : bool :=
  match p with Track _ _ => true | Silence _ => false end.

Definition is_gap (ms : N) (p : piece) : bool :=
  match p with Silence d => (d =? ms)%N | Track _ _ => false end.

Definition tracks (a : AudioSegment) : nat := length (filter (λ p, is_track p = true) a).
Definition gaps (ms : N) (a : AudioSegment) : nat := length (filter (λ p, is_gap ms p = true) a).

(** What [AudioSegment.from_mp3] does on a file: it returns audio of some
    length, raises one of the exceptions the combine loop catches
    ([CouldntDecodeError], [IOError], [OSError]), or raises something else. *)
Inductive decode_result :=
  | Decoded (ms : N)
  | DecodeError
  | DecodeCrash.

(** What [export] does: it writes the file, raises [IOError], or raises
    something else. *)
Inductive export_result := Exported | ExportIOError | ExportCrash.

Definition read_mp3_file (decode : string → decode_result) (filename : string)
  : decode_result := decode filename.

(** ** Exceptions, output and the terminal *)

Inductive exn :=
  | KeyboardInterrupt
  | UnicodeDecodeError
  | TermiosError
  | OSError
  | IndexError
  | NameError
  | LibraryError
  | SystemExit (code : Z).

Inductive message :=
  | Help | Usage
  | NotFound | NotADirectory | NoFilesFound
  | Combining
  | Order (files : list string)
  | OutputPath
  | Processing (filename : string)
  | AddedSilence (filename : string)
  | Warning (filename : string)
  | Saving | Saved
  | Duration (a : AudioSegment)      (* the length of [a], in seconds *)
  | WriteError | NoValidFiles
  | Exiting.

Inductive event :=
  | SetRaw                       (* tty.setraw *)
  | Restore                      (* termios.tcsetattr(..., original_settings) *)
  | Clear                        (* clear_screen *)
  | Draw (st : editor)           (* display_mp3_files *)
  | Print (m : message)
  | Export (a : AudioSegment).   (* combined_audio.export *)

Global Instance piece_eq_dec : EqDecision piece.
Proof. solve_decision. Defined.
Global Instance message_eq_dec : EqDecision message.
Proof. solve_decision. Defined.
Global Instance editor_eq_dec : EqDecision editor.
Proof. solve_decision. Defined.
Global Instance event_eq_dec : EqDecision event.
Proof. solve_decision. Defined.
Global Instance exn_eq_dec : EqDecision exn.
Proof. solve_decision. Defined.

(** The terminal is in the mode it had at start-up ([Cooked], what
    [original_settings] holds) or in raw mode. *)
Inductive mode := Cooked | Raw.

Definition mode_after (m : mode) (tr : list event) : mode :=
  foldl (λ m e, match e with SetRaw => Raw | Restore => Cooked | _ => m end) m tr.

Definition is_restore (e : event) : bool :=
  match e with Restore => true | _ => false end.

Definition restores (tr : list event) : nat :=
  length (filter (λ e, is_restore e = true) tr).

Definition is_draw (e : event) : bool :=
  match e with Draw _ => true | _ => false end.

Definition is_export (e : event) : bool :=
  match e with Export _ => true | _ => false end.

Definition exports (tr : list event) : nat :=
  length (filter (λ e, is_export e = true) tr).

(** ** Standard input

    [sys.stdin] is a text stream: a [read(1)] returns one decoded character,
    however many raw bytes encode it, or raises.  A character is modelled by
    its code point, and a [str] read from the keyboard by the list of its
    characters.  An item of the stream is what the next [read(1)] finds: a
    character, an interrupt delivered while the read blocks, or bytes that
    do not decode ([UnicodeDecodeError]).  When nothing is left the stream
    is at end of file and [read(1)] returns the empty string. *)

Inductive rd := Key (c : N) | Interrupt | Undecodable.

(** The strings the renderer writes are strings of 8-bit characters. *)
Definition chr (c : ascii) : string := String c EmptyString.

Definition ESC : string := chr "027".
Definition CR : string := chr "013".
Definition LF : string := chr "010".

(** The code point of an ASCII character, and the test [s == 'a'] of a
    string read from the keyboard against a one-character literal. *)
Definition ord (a : ascii) : N := N_of_ascii a.

Definition is_chr (s : list N) (a : ascii) : bool :=
  match s with
  | [c] => (c =? ord a)%N
  | _ => false
  end.

Definition read1 (inp : list rd) : (list N + exn) * list rd :=
  match inp with
  | [] => (inl [], [])
  | Key c :: inp' => (inl [c], inp')
  | Interrupt :: inp' => (inr KeyboardInterrupt, inp')
  | Undecodable :: inp' => (inr UnicodeDecodeError, inp')
  end.

(** ** KeyDecoder

    The reads of one loop iteration (lines 155-163) and the branch the
    characters select, without the branch bodies. *)

Definition next_command (inp : list rd) : (command + exn) * list rd :=
  match read1 inp with
  | (inr e, inp1) => (inr e, inp1)
  | (inl char, inp1) =>
      if is_chr char "027" then
        match read1 inp1 with
        | (inr e, inp2) => (inr e, inp2)
        | (inl next_char, inp2) =>
            if is_chr next_char "[" then
              match read1 inp2 with
              | (inr e, inp3) => (inr e, inp3)
              | (inl arrow_key, inp3) =>
                  if is_chr arrow_key "A" then (inl MoveUp, inp3)
                  else if is_chr arrow_key "B" then (inl MoveDown, inp3)
                  else (inl Ignore, inp3)
              end
            else (inl Ignore, inp2)
        end
      else if is_chr char "013" || is_chr char "010" then (inl TogglePick, inp1)
      else if is_chr char "c" then (inl Combine, inp1)
      else if is_chr char "q" then (inl Quit, inp1)
      else (inl Ignore, inp1)
  end.

(** The exception a read raises on an item of the stream, if any. *)
Definition raised (r : rd) : option exn :=
  match r with
  | Key _ => None
  | Interrupt => Some KeyboardInterrupt
  | Undecodable => Some UnicodeDecodeError
  end.


(** Number of items a call took from the stream: one per read that found
    a character or raised. *)
Definition consumed (inp : list rd) : nat :=
  (length inp - length (snd (next_command inp)))%nat.

(** ** The interactive loop (lines 153-216)

    One pass through the body of [while True].  [char] is the Python variable
    of that name: [None] while it is unbound, and left as it was when the
    first read raises.  A pass ends with the redraw of line 216 unless it
    breaks or raises. *)

Inductive flow := Next (st : editor) | Break | Raise (e : exn).

Definition redraw (char : list N) (r : option editor) (inp : list rd)
  : option (list N) * list event * flow * list rd :=
  match r with
  | Some st' => (Some char, [Draw st'], Next st', inp)
  | None => (Some char, [], Raise IndexError, inp)
  end.

Definition iteration (inp : list rd) (st : editor) (char0 : option (list N))
  : option (list N) * list event * flow * list rd :=
  match read1 inp with
  | (inr e, inp1) => (char0, [], Raise e, inp1)
  | (inl char, inp1) =>
      if is_chr char "027" then
        match read1 inp1 with
        | (inr e, inp2) => (Some char, [], Raise e, inp2)
        | (inl next_char, inp2) =>
            if is_chr next_char "[" then
              match read1 inp2 with
              | (inr e, inp3) => (Some char, [], Raise e, inp3)
              | (inl arrow_key, inp3) =>
                  if is_chr arrow_key "A" then redraw char (arrow_up st) inp3
                  else if is_chr arrow_key "B" then redraw char (arrow_down st) inp3
                  else redraw char (Some st) inp3
              end
            else redraw char (Some st) inp2
        end
      else if is_chr char "013" || is_chr char "010" then
        redraw char (Some (enter st)) inp1
      else if is_chr char "c" then
        (Some char, [Restore; Clear; Print Combining], Break, inp1)
      else if is_chr char "q" then
        (Some char, [], Break, inp1)
      else redraw char (Some st) inp1
  end.

(** How a piece of the script ends: it runs to its end, an exception
    propagates out of it, or it never ends.  At end of file every read
    returns the empty string, no branch matches, and the loop redraws the
    same list forever ([Diverges]).  [OutOfFuel] is the model's own and is
    never produced with the fuel [session] supplies. *)
Inductive status := Normal | Raising (e : exn) | Diverges | OutOfFuel.

Global Instance status_eq_dec : EqDecision status.
Proof. solve_decision. Defined.

Fixpoint loop (fuel : nat) (inp : list rd) (st : editor) (char : option (list N))
  : list event * (option (list N) * editor * status) :=
  match inp with
  | [] => ([], (Some [], st, Diverges))
  | _ :: _ =>
      match fuel with
      | O => ([], (char, st, OutOfFuel))
      | S fuel' =>
          let '(char', evs, fl, inp') := iteration inp st char in
          match fl with
          | Next st' =>
              let '(evs', r) := loop fuel' inp' st' char' in (evs ++ evs', r)
          | Break => (evs, (char', st, Normal))
          | Raise e => (evs, (char', st, Raising e))
          end
      end
  end.

(** ** Combiner

    The [for i, filename in enumerate(mp3_files)] loop (lines 229-249).  [n]
    is [len(mp3_files)], [i] the index of the head of [files], and [combined]
    the value of [combined_audio] so far. *)

Fixpoint combine_loop (decode : string → decode_result) (n i : Z)
    (files : list string) (combined : AudioSegment)
  : list event * (AudioSegment + exn) :=
  match files with
  | [] => ([], inl combined)
  | filename :: rest =>
      match read_mp3_file decode filename with
      | Decoded ms =>
          let combined := combined ++ [Track filename ms] in
          if i <? n - 1 then
            let combined := combined ++ generate_silence 3000 in
            let '(evs, r) := combine_loop decode n (i + 1) rest combined in
            (Print (Processing filename) :: Print (AddedSilence filename) :: evs, r)
          else
            let '(evs, r) := combine_loop decode n (i + 1) rest combined in
            (Print (Processing filename) :: evs, r)
      | DecodeError =>
          let '(evs, r) := combine_loop decode n (i + 1) rest combined in
          (Print (Processing filename) :: Print (Warning filename) :: evs, r)
      | DecodeCrash =>
          ([Print (Processing filename)], inr LibraryError)
      end
  end.

(** The value of [combined_audio] when the loop over [files] has run. *)
Definition combine (decode : string → decode_result) (files : list string)
  : list event * (AudioSegment + exn) :=
  combine_loop decode (len files) 0 files empty_audio.

(** The body of [if char == 'c'] after the interactive loop (lines
    219-264): the announced order, the combine loop, and the export guarded
    by [len(combined_audio) > 0].  [sys.exit(1)] raises [SystemExit]. *)
Definition combine_phase (decode : string → decode_result)
    (export : AudioSegment → export_result) (files : list string)
  : list event * status :=
  let '(evs, r) := combine decode files in
  let intro := [Print (Order files); Print OutputPath] in
  match r with
  | inr e => (intro ++ evs, Raising e)
  | inl combined_audio =>
      if audio_len combined_audio >? 0 then
        match export combined_audio with
        | Exported =>
            (intro ++ evs ++ [Print Saving; Export combined_audio; Print Saved;
                              Print (Duration combined_audio)], Normal)
        | ExportIOError =>
            (intro ++ evs ++ [Print Saving; Export combined_audio; Print WriteError],
             Raising (SystemExit 1))
        | ExportCrash =>
            (intro ++ evs ++ [Print Saving; Export combined_audio], Raising LibraryError)
        end
      else (intro ++ evs ++ [Print NoValidFiles], Raising (SystemExit 1))
  end.

(** ** The terminal session: [try] ... [finally] (lines 143-271)

    Exceptions are modelled where the script calls out: an interrupt or a
    decoding error during a read of the keyboard, and a failure of the
    decoder or of the exporter. *)

(** The [try] block: raw mode, the first draw, the interactive loop, and the
    combine phase when the loop was left with ['c']. *)
Definition try_block (decode : string → decode_result)
    (export : AudioSegment → export_result) (inp : list rd) (files : list string)
  : list event * (option (list N) * status) :=
  let '(evs, (char, st, s)) := loop (length inp) inp (initial files) None in
  let pre := [SetRaw; Draw (initial files)] in
  match s with
  | Normal =>
      if bool_decide (char = Some [ord "c"]) then
        let '(evs', s') := combine_phase decode export (mp3_files st) in
        (pre ++ evs ++ evs', (char, s'))
      else (pre ++ evs, (char, Normal))
  | _ => (pre ++ evs, (char, s))
  end.

(** The [finally] block (lines 266-271).  It runs whenever control leaves
    the [try] block; reading an unbound [char] raises [NameError] in place
    of whatever was propagating. *)
Definition finally (char : option (list N)) (s : status) : list event * status :=
  match s with
  | Diverges | OutOfFuel => ([], s)
  | Normal | Raising _ =>
      match char with
      | None => ([Restore], Raising NameError)
      | Some c =>
          if is_chr c "c" then ([Restore], s)
          else ([Restore; Clear; Print Exiting], s)
      end
  end.

Definition session (decode : string → decode_result)
    (export : AudioSegment → export_result) (inp : list rd) (files : list string)
  : list event * status :=
  let '(evs, (char, s)) := try_block decode export inp files in
  let '(evs', s') := finally char s in
  (evs ++ evs', s').

(** ** The script (lines 118-143, then the session) *)

(** What [parse_arguments] (lines 66-83) makes of the command line: the two
    paths, or [argparse] ends the script, with the help text and status 0
    when [-h] is given, with a usage error and status 2 otherwise. *)
Inductive cmdline := TwoPaths | HelpFlag | BadArguments.

Record world := World {
  argv : cmdline;
  path_exists : bool;                         (* os.path.exists(input_folder_path) *)
  path_isdir : bool;                          (* os.path.isdir(input_folder_path) *)
  listable : bool;                            (* whether os.listdir returns *)
  listdir : list string;                      (* os.listdir(input_folder_path) *)
  stdin_isatty : bool;                        (* whether termios.tcgetattr returns *)
  stdin : list rd;
  decoder : string → decode_result;
  exporter : AudioSegment → export_result
}.

Definition main (w : world) : list event * status :=
  match argv w with
  | HelpFlag => ([Print Help], Raising (SystemExit 0))
  | BadArguments => ([Print Usage], Raising (SystemExit 2))
  | TwoPaths =>
      if negb (path_exists w) then ([Print NotFound], Raising (SystemExit 1))
      else if negb (path_isdir w) then ([Print NotADirectory], Raising (SystemExit 1))
      else if negb (listable w) then
        (* os.listdir raises, for a folder that may not be read *)
        ([], Raising OSError)
      else
        let mp3_files := list_mp3_files (listdir w) in
        match mp3_files with
        | [] => ([Print NoFilesFound], Raising (SystemExit 1))
        | _ :: _ =>
            (* original_settings = termios.tcgetattr(sys.stdin.fileno()),
               outside the try block: it raises termios.error when standard
               input is not a terminal *)
            if stdin_isatty w then session (decoder w) (exporter w) (stdin w) mp3_files
            else ([], Raising TermiosError)
        end
  end.

(** The exit status of the process when the script ends or calls
    [sys.exit]. *)
Definition exit_code (s : status) : option Z :=
  match s with
  | Normal => Some 0
  | Raising (SystemExit code) => Some code
  | Raising _ | Diverges | OutOfFuel => None
  end.

(** Keys as the terminal sends them. *)
Definition key_up : list rd := [Key (ord "027"); Key (ord "["); Key (ord "A")].
Definition key_down : list rd := [Key (ord "027"); Key (ord "["); Key (ord "B")].
Definition key_enter : list rd := [Key (ord "013")].
Definition key_c : list rd := [Key (ord "c")].
Definition key_q : list rd := [Key (ord "q")].

(** ** Renderer: [clear_screen] and [display_mp3_files] (lines 85-116)

    What a call writes to standard output.  [print] appends a line feed to
    its argument; the row of a file is chosen by the four-way test of lines
    100-111, in which [idx == selected_index] is false while
    [selected_index] is [None]. *)

Definition py_print (s : string) : string := s +:+ LF.

Definition clear_screen : string := ESC +:+ "[2J" +:+ ESC +:+ "[H".

Definition plain_row (file : string) : string := "- " +:+ file +:+ CR.
Definition focused_row (file : string) : string := "- *> " +:+ file +:+ " <*" +:+ CR.
Definition selected_row (file : string) : string := "- *> SELECTED >*" +:+ file +:+ CR.

Definition row (idx : Z) (file : string) (focused_index : Z) (selected_index : option Z)
  : string :=
  if (idx =? focused_index) && bool_decide (selected_index = Some idx) then
    selected_row file
  else if idx =? focused_index then focused_row file
  else if bool_decide (selected_index = Some idx) then selected_row file
  else plain_row file.

(** The rows of [for idx, file in enumerate(mp3_files)], [idx] being the
    index of the head of the list. *)
Fixpoint rows_from (idx : Z) (mp3_files : list string) (focused_index : Z)
    (selected_index : option Z) : list string :=
  match mp3_files with
  | [] => []
  | file :: rest =>
      row idx file focused_index selected_index
      :: rows_from (idx + 1) rest focused_index selected_index
  end.

(** The arguments of the calls of [print], in order. *)
Definition display_lines (mp3_files : list string) (focused_index : Z)
    (selected_index : option Z) (input_folder_path output_file_path : string)
  : list string :=
  [ "Input folder: " +:+ input_folder_path +:+ CR;
    "Output file: " +:+ output_file_path +:+ CR;
    LF +:+ "MP3 files found:" +:+ CR ]
  ++ rows_from 0 mp3_files focused_index selected_index
  ++ [ LF +:+ "Use up/down arrow keys to navigate, Enter to select/deselect, 'q' to quit"
          +:+ CR;
       "When an item is selected, up/down arrows will reorder it in the list" +:+ CR;
       "Press 'c' to combine files in the current order" +:+ CR ].

Definition display_mp3_files (mp3_files : list string) (focused_index : Z)
    (selected_index : option Z) (input_folder_path output_file_path : string)
  : string :=
  clear_screen
  +:+ foldr String.app EmptyString
        (py_print <$> display_lines mp3_files focused_index selected_index
                        input_folder_path output_file_path).

(** The frame a [Draw] event stands for. *)
Definition frame (input_folder_path output_file_path : string) (st : editor) : string :=
  display_mp3_files (mp3_files st) (focused_index st) (selected_index st)
    input_folder_path output_file_path.

(** ** Vocabulary for the combined audio *)

(** The length of what a file decodes to ([0] when it does not decode). *)
Definition decoded_ms (decode : string → decode_result) (filename : string) : N :=
  match decode filename with Decoded ms => ms | _ => 0%N end.

(** The track a file contributes when it decodes. *)
Definition track_of (decode : string → decode_result) (filename : string) : piece :=
  Track filename (decoded_ms decode filename).

(** Tracks with one gap of three seconds between each two of them. *)
Fixpoint gapped (ts : list piece) : list piece :=
  match ts with
  | [] => []
  | t :: rest =>
      match rest with
      | [] => [t]
      | _ :: _ => t :: Silence 3000 :: gapped rest
      end
  end.

(** The characters each command is typed as (Enter as the carriage return
    a raw terminal sends; [x] stands for the keys without a meaning). *)
Definition key_of (c : command) : list rd :=
  match c with
  | MoveUp => key_up
  | MoveDown => key_down
  | TogglePick => key_enter
  | Combine => key_c
  | Quit => key_q
  | Ignore => [Key (ord "x")]
  end.

(** ** Sample inputs *)

(** A folder in which only [b.mp3] fails to decode. *)
Definition only_b_fails (filename : string) : decode_result :=
  if (filename =? "b.mp3")%string then DecodeError else Decoded 1000.

Definition all_fail (filename : string) : decode_result := DecodeError.

Definition all_decode (filename : string) : decode_result := Decoded 1000.

Definition always_exported (a : AudioSegment) : export_result := Exported.

(** A folder with one MP3 file that decodes to audio of length zero, and a
    user who presses ['c'] at once. *)
Definition silent_world : world :=
  {| argv := TwoPaths;
     path_exists := true;
     path_isdir := true;
     listable := true;
     listdir := ["a.mp3"%string];
     stdin_isatty := true;
     stdin := key_c;
     decoder := λ _, Decoded 0;
     exporter := always_exported |}.

(** ** Vocabulary for the combine pass *)

(** The progress lines the combine loop prints. *)
Definition is_progress (e : event) : bool :=
  match e with
  | Print (Processing _) | Print (AddedSilence _) | Print (Warning _) => true
  | _ => false
  end.

Definition decodable (decode : string → decode_result) (filename : string) : bool :=
  match decode filename with Decoded _ => true | _ => false end.

(** What a file that is not the last of the list contributes: its track
    and a gap of three seconds when it decodes, nothing when it is skipped. *)
Definition with_gap (decode : string → decode_result) (filename : string)
  : AudioSegment :=
  if decodable decode filename then [track_of decode filename; Silence 3000] else [].

(** How many of [files] decode. *)
Definition decoded_count (decode : string → decode_result) (files : list string) : nat :=
  length (filter (λ f, decodable decode f = true) files).

(** ** Reachable editor states

    What the loop maintains: the focus is a position of the list (or, on an
    empty list, the [-1] or [0] the clamps of the arrow keys produce), and a
    picked-up item is the focused one. *)

Definition wf (st : editor) : Prop :=
  (0 ≤ focused_index st < len (mp3_files st)
   ∨ (mp3_files st = [] ∧ -1 ≤ focused_index st ≤ 0))
  ∧ (selected_index st = None ∨ selected_index st = Some (focused_index st)).

(** * Properties *)

(** Case analysis on every test of the goal. *)
Ltac split_ifs :=
  repeat match goal with
    | |- context [if ?b then _ else _] => destruct b eqn:?
    end.

(** ** Python strings *)

Lemma length_app_string (p t : string) :
  String.length (p +:+ t) = (String.length p + String.length t)%nat.
Proof. induction p as [|c p IH]; simpl; [reflexivity | now rewrite IH]. Qed.

Lemma substring_all (s : string) : substring 0 (String.length s) s = s.
Proof. induction s as [|c s IH]; simpl; [reflexivity | now rewrite IH]. Qed.

Lemma substring_after_prefix (p t : string) :
  substring (String.length p) (String.length t) (p +:+ t) = t.
Proof. induction p as [|c p IH]; simpl; [apply substring_all | exact IH]. Qed.

Lemma substring_split (s : string) (n m : nat) :
  (n + m)%nat = String.length s →
  s = substring 0 n s +:+ substring n m s.
Proof.
  revert n; induction s as [|c s IH]; intros n Hlen; simpl in Hlen.
  - destruct n, m; try discriminate; reflexivity.
  - destruct n as [|n]; simpl.
    + simpl in Hlen; subst m; simpl. now rewrite substring_all.
    + change (String c s = String c (substring 0 n s +:+ substring n m s)).
      f_equal. apply IH. lia.
Qed.

(** [endswith] holds exactly of the strings that are some prefix followed by
    the suffix. *)
Lemma endswith_spec (s suffix : string) :
  endswith s suffix = true ↔ ∃ p, s = p +:+ suffix.
Proof.
  unfold endswith; rewrite andb_true_iff, Nat.leb_le, String.eqb_eq; split.
  - intros [Hle Hsub].
    exists (substring 0 (String.length s - String.length suffix) s).
    pose proof (substring_split s (String.length s - String.length suffix)
                  (String.length suffix)) as Hsplit.
    rewrite Hsub in Hsplit. apply Hsplit. lia.
  - intros [p ->]. rewrite length_app_string. split; [lia|].
    replace (String.length p + String.length suffix - String.length suffix)%nat
      with (String.length p) by lia.
    apply substring_after_prefix.
Qed.

(** [String.le] is the lexicographic order on character codes, the order
    Python compares [str] values by (and, for names read as UTF-8 bytes,
    the order of their code points). *)
Lemma string_le_nil (t : string) : String.le EmptyString t.
Proof. now destruct t. Qed.

Lemma string_le_cons_nil (a : ascii) (s : string) : ¬ String.le (String a s) EmptyString.
Proof. intros H. exact H. Qed.

Lemma string_le_cons (a b : ascii) (s t : string) :
  String.le (String a s) (String b t)
  ↔ (N_of_ascii a < N_of_ascii b)%N ∨ (a = b ∧ String.le s t).
Proof.
  unfold String.le, String.leb. cbn [String.compare]. unfold Ascii.compare.
  destruct (N.compare_spec (N_of_ascii a) (N_of_ascii b)) as [Heq|Hlt|Hgt].
  - apply (f_equal ascii_of_N) in Heq. rewrite !ascii_N_embedding in Heq. subst b.
    split; [intros H; right; now split | intros [Hlt|[_ H]]; [lia | exact H]].
  - split; [intros _; now left | intros _; exact I].
  - split; [intros [] | intros [Hlt|[-> _]]; lia].
Qed.

(** ** FileLister *)

(** The sorted arrangement of a list of names is unique, so [sorted] does
    not depend on the sorting algorithm. *)
Lemma sorted_unique (l l' : list string) :
  Sorted String.le l' → l' ≡ₚ l → l' = sorted l.
Proof.
  intros Hs Hp. apply (Sorted_unique String.le); [exact Hs | |].
  - apply (Sorted_merge_sort String.le).
  - unfold sorted. now rewrite merge_sort_Permutation.
Qed.

Lemma list_mp3_files_perm (all_items : list string) :
  list_mp3_files all_items ≡ₚ filter (λ file, is_mp3 file = true) all_items.
Proof. unfold list_mp3_files, sorted. apply merge_sort_Permutation. Qed.

Lemma list_mp3_files_sorted (all_items : list string) :
  StronglySorted String.le (list_mp3_files all_items).
Proof. unfold list_mp3_files, sorted. apply (StronglySorted_merge_sort String.le). Qed.

(** ** Python lists *)

Lemma py_index_lt {A} (l : list A) (i : Z) (k : nat) :
  py_index l i = Some k → (k < length l)%nat.
Proof.
  unfold py_index, len. intros H.
  destruct ((0 <=? i) && (i <? Z.of_nat (length l))) eqn:E1.
  { apply andb_true_iff in E1 as [?%Z.leb_le ?%Z.ltb_lt]. simplify_eq. lia. }
  destruct ((- Z.of_nat (length l) <=? i) && (i <? 0)) eqn:E2; [|discriminate].
  apply andb_true_iff in E2 as [?%Z.leb_le ?%Z.ltb_lt]. simplify_eq. lia.
Qed.

Lemma py_index_nonneg {A} (l : list A) (i : Z) :
  0 ≤ i < len l → py_index l i = Some (Z.to_nat i).
Proof.
  intros [H1 H2]. unfold py_index.
  apply Z.leb_le in H1. apply Z.ltb_lt in H2. now rewrite H1, H2.
Qed.

Lemma py_index_length {A} (l l' : list A) (i : Z) :
  length l = length l' → py_index l i = py_index l' i.
Proof. intros H. unfold py_index, len. now rewrite H. Qed.

Lemma insert_head_perm {A} (l : list A) (j : nat) (x y : A) :
  l !! j = Some y → y :: <[j:=x]> l ≡ₚ x :: l.
Proof.
  revert j; induction l as [|a l IH]; intros [|j] H; simplify_eq/=.
  - apply perm_swap.
  - rewrite perm_swap, (IH j H). apply perm_swap.
Qed.

(** Writing two entries of a list into each other's place permutes it. *)
Lemma insert_insert_perm {A} (l : list A) (i j : nat) (x y : A) :
  l !! i = Some y → l !! j = Some x → <[j:=y]> (<[i:=x]> l) ≡ₚ l.
Proof.
  revert i j; induction l as [|a l IH]; intros [|i] [|j] Hi Hj; simplify_eq/=.
  - reflexivity.
  - now apply insert_head_perm.
  - now apply insert_head_perm.
  - f_equiv. now apply IH.
Qed.

Lemma swap_items_perm {A} (l l' : list A) (i j : Z) :
  swap_items l i j = Some l' → l' ≡ₚ l.
Proof.
  unfold swap_items, getitem, setitem. intros H.
  destruct (py_index l j) as [kj|] eqn:Ej; [|discriminate]. simpl in H.
  destruct (l !! kj) as [x|] eqn:Ex; [|discriminate]. simpl in H.
  destruct (py_index l i) as [ki|] eqn:Ei; [|discriminate]. simpl in H.
  destruct (l !! ki) as [y|] eqn:Ey; [|discriminate]. simpl in H.
  rewrite (py_index_length (<[ki:=x]> l) l j) in H by apply length_insert.
  rewrite Ej in H. simpl in H. simplify_eq.
  now apply insert_insert_perm.
Qed.

Lemma swap_items_is_Some {A} (l : list A) (i j : Z) :
  0 ≤ i < len l → 0 ≤ j < len l → is_Some (swap_items l i j).
Proof.
  intros Hi Hj. unfold swap_items, getitem, setitem.
  rewrite (py_index_nonneg l j Hj). simpl.
  destruct (lookup_lt_is_Some_2 l (Z.to_nat j)) as [x ->]; [unfold len in Hj; lia|].
  simpl. rewrite (py_index_nonneg l i Hi). simpl.
  destruct (lookup_lt_is_Some_2 l (Z.to_nat i)) as [y ->]; [unfold len in Hi; lia|].
  simpl. rewrite (py_index_length (<[Z.to_nat i:=x]> l) l j) by apply length_insert.
  rewrite (py_index_nonneg l j Hj). simpl. eauto.
Qed.

Lemma len_perm {A} (l l' : list A) : l ≡ₚ l' → len l = len l'.
Proof. intros H. unfold len. now rewrite (Permutation_length H). Qed.

(** ** The list editor *)

Lemma arrow_up_perm (st st' : editor) :
  arrow_up st = Some st' → mp3_files st' ≡ₚ mp3_files st.
Proof.
  unfold arrow_up. destruct (selected_index st) as [sel|].
  - destruct (sel >? 0).
    + destruct (swap_items (mp3_files st) sel (sel - 1)) as [files|] eqn:E;
        intros H; simplify_eq/=. now apply swap_items_perm in E.
    + intros H; now simplify_eq.
  - intros H; now simplify_eq.
Qed.

Lemma arrow_down_perm (st st' : editor) :
  arrow_down st = Some st' → mp3_files st' ≡ₚ mp3_files st.
Proof.
  unfold arrow_down. destruct (selected_index st) as [sel|].
  - destruct (sel <? len (mp3_files st) - 1).
    + destruct (swap_items (mp3_files st) sel (sel + 1)) as [files|] eqn:E;
        intros H; simplify_eq/=. now apply swap_items_perm in E.
    + intros H; now simplify_eq.
  - intros H; now simplify_eq.
Qed.

Lemma enter_files (st : editor) : mp3_files (enter st) = mp3_files st.
Proof. unfold enter. now destruct (selected_index st). Qed.

(** No command inserts, deletes or duplicates an entry. *)
Lemma apply_command_perm (c : command) (st st' : editor) :
  apply_command c st = Some st' → mp3_files st' ≡ₚ mp3_files st.
Proof.
  destruct c; simpl; intros H.
  - now apply arrow_up_perm.
  - now apply arrow_down_perm.
  - simplify_eq. now rewrite enter_files.
  - now simplify_eq.
  - now simplify_eq.
  - now simplify_eq.
Qed.

Lemma arrow_up_wf (st : editor) :
  wf st → ∃ st', arrow_up st = Some st' ∧ wf st'.
Proof.
  destruct st as [files f sel]; unfold wf, arrow_up; simpl.
  intros [Hf [-> | ->]].
  - eexists; split; [reflexivity|]; simpl. split; [|now left].
    unfold len in *; simpl in *.
    destruct Hf as [Hf | [-> Hf]]; [left; lia | right; split; [reflexivity | simpl; lia]].
  - destruct (f >? 0) eqn:E.
    + apply Z.gtb_lt in E.
      destruct Hf as [Hf | [_ Hf]]; [|lia].
      destruct (swap_items_is_Some files f (f - 1)) as [files' Hsw]; [lia | lia |].
      rewrite Hsw; simpl. eexists; split; [reflexivity|]; simpl.
      apply swap_items_perm, len_perm in Hsw. split; [left; lia | now right].
    + eexists; split; [reflexivity|]; simpl. split; [exact Hf | now right].
Qed.

Lemma arrow_down_wf (st : editor) :
  wf st → ∃ st', arrow_down st = Some st' ∧ wf st'.
Proof.
  destruct st as [files f sel]; unfold wf, arrow_down; simpl.
  intros [Hf [-> | ->]].
  - eexists; split; [reflexivity|]; simpl. split; [|now left].
    unfold len in *; simpl in *.
    destruct Hf as [Hf | [-> Hf]]; [left; lia | right; split; [reflexivity | simpl; lia]].
  - destruct (f <? len files - 1) eqn:E.
    + apply Z.ltb_lt in E.
      destruct Hf as [Hf | [-> Hf]]; [|unfold len in E; simpl in E; lia].
      destruct (swap_items_is_Some files f (f + 1)) as [files' Hsw]; [lia | lia |].
      rewrite Hsw; simpl. eexists; split; [reflexivity|]; simpl.
      apply swap_items_perm, len_perm in Hsw. split; [left; lia | now right].
    + eexists; split; [reflexivity|]; simpl. split; [exact Hf | now right].
Qed.

Lemma enter_wf (st : editor) : wf st → wf (enter st).
Proof.
  destruct st as [files f sel]; unfold wf, enter; simpl.
  intros [Hf _]. destruct sel; simpl; auto.
Qed.

(** From a reachable state every command succeeds (no index is out of
    range) and leads to a reachable state. *)
Lemma apply_command_wf (c : command) (st : editor) :
  wf st → ∃ st', apply_command c st = Some st' ∧ wf st'.
Proof.
  intros Hwf. destruct c; simpl; eauto using arrow_up_wf, arrow_down_wf, enter_wf.
Qed.

Lemma initial_wf (files : list string) : wf (initial files).
Proof.
  unfold wf, initial, len; simpl. split; [|now left].
  destruct files; [right | left]; simpl; [auto with lia | lia].
Qed.

Lemma run_commands_wf (cs : list command) (st : editor) :
  wf st →
  ∃ st', run_commands cs st = Some st' ∧ wf st' ∧ mp3_files st' ≡ₚ mp3_files st.
Proof.
  revert st; induction cs as [|c cs IH]; intros st Hwf; simpl.
  - eauto.
  - destruct (terminal c); [eauto|].
    destruct (apply_command_wf c st Hwf) as (st1 & Hst1 & Hwf1).
    rewrite Hst1; simpl.
    destruct (IH st1 Hwf1) as (st' & Hrun & Hwf' & Hperm).
    exists st'. split; [exact Hrun|]. split; [exact Hwf'|].
    rewrite Hperm. now apply apply_command_perm in Hst1.
Qed.

Lemma run_commands_perm (cs : list command) (st st' : editor) :
  run_commands cs st = Some st' → mp3_files st' ≡ₚ mp3_files st.
Proof.
  revert st; induction cs as [|c cs IH]; intros st; simpl.
  - intros H; now simplify_eq.
  - destruct (terminal c); [intros H; now simplify_eq|].
    destruct (apply_command c st) as [st1|] eqn:E; [|discriminate]; simpl.
    intros H. rewrite (IH _ H). now apply apply_command_perm in E.
Qed.

(** ** KeyDecoder and the loop body *)

Lemma is_chr_spec (s : list N) (a : ascii) : is_chr s a = true ↔ s = [ord a].
Proof.
  destruct s as [|c [|c' s]]; simpl; [split; discriminate | | split; discriminate].
  rewrite N.eqb_eq. split; [now intros -> | now intros [= ->]].
Qed.

Lemma is_chr_key (c : N) (a : ascii) : is_chr [c] a = (c =? ord a)%N.
Proof. reflexivity. Qed.

(** A call takes a prefix of at most three items off the stream, and at
    least one unless the stream is at its end. *)
Lemma next_command_rest (inp : list rd) :
  ∃ k, (k ≤ 3)%nat ∧ snd (next_command inp) = drop k inp ∧ (inp ≠ [] → (1 ≤ k)%nat).
Proof.
  unfold next_command.
  destruct inp as [|[c| |] [|[c2| |] [|[c3| |] inp3]]]; cbn [read1];
    split_ifs; cbn [snd];
    first [ exists 0%nat; split; [lia|]; split; [reflexivity|]; intros H; now destruct H
          | exists 1%nat; split; [lia|]; split; [reflexivity|]; intros _; lia
          | exists 2%nat; split; [lia|]; split; [reflexivity|]; intros _; lia
          | exists 3%nat; split; [lia|]; split; [reflexivity|]; intros _; lia ].
Qed.

Lemma next_command_shorter (inp : list rd) :
  inp ≠ [] → (length (snd (next_command inp)) < length inp)%nat.
Proof.
  intros Hne. destruct (next_command_rest inp) as (k & Hk & -> & Hpos).
  specialize (Hpos Hne). rewrite length_drop.
  destruct inp; [now destruct Hne | simpl; lia].
Qed.

Lemma next_command_plain (c : N) (l : list rd) :
  c ≠ ord "027" → ∃ cmd, next_command (Key c :: l) = (inl cmd, l).
Proof.
  intros Hc. unfold next_command. cbn [read1].
  rewrite (is_chr_key c "027"). apply N.eqb_neq in Hc. rewrite Hc.
  split_ifs; eauto.
Qed.

Lemma next_command_esc_other (c : N) (l : list rd) :
  c ≠ ord "[" → next_command (Key (ord "027") :: Key c :: l) = (inl Ignore, l).
Proof.
  intros Hc. unfold next_command. cbn [read1].
  change (is_chr [ord "027"] "027") with true. cbv iota.
  rewrite (is_chr_key c "["). apply N.eqb_neq in Hc. now rewrite Hc.
Qed.

Lemma next_command_arrow (x : N) (l : list rd) :
  next_command (Key (ord "027") :: Key (ord "[") :: Key x :: l)
  = (inl (if (x =? ord "A")%N then MoveUp
          else if (x =? ord "B")%N then MoveDown else Ignore), l).
Proof.
  unfold next_command. cbn [read1].
  change (is_chr [ord "027"] "027") with true.
  change (is_chr [ord "["] "[") with true. cbv iota.
  rewrite !is_chr_key. split_ifs; reflexivity.
Qed.

(** One pass of the loop reads what [next_command] reads and does what the
    decoded command says. *)
Lemma iteration_spec (inp : list rd) (st : editor) (char0 : option (list N)) :
  ∃ char evs fl,
    iteration inp st char0 = (char, evs, fl, snd (next_command inp)) ∧
    match fst (next_command inp) with
    | inr e => fl = Raise e ∧ evs = []
    | inl Combine =>
        fl = Break ∧ char = Some [ord "c"] ∧ evs = [Restore; Clear; Print Combining]
    | inl Quit => fl = Break ∧ char = Some [ord "q"] ∧ evs = []
    | inl c =>
        match apply_command c st with
        | Some st' => fl = Next st' ∧ evs = [Draw st']
        | None => fl = Raise IndexError ∧ evs = []
        end
    end.
Proof.
  unfold iteration, next_command.
  destruct inp as [|[c| |] [|[c2| |] [|[c3| |] inp3]]]; cbn [read1];
    split_ifs; try discriminate;
    unfold redraw; cbn [fst snd apply_command];
    try destruct (arrow_up st); try destruct (arrow_down st);
    repeat match goal with
      | H : is_chr [c] _ = true |- _ => apply is_chr_spec in H; injection H as ->
      end;
    eauto 10.
Qed.

(** ** The interactive loop *)

(** With fuel for every character of the input, the loop from a reachable
    state never runs out of fuel and never indexes out of range; it leaves
    the list a permutation of what it was; and all it writes is redraws,
    followed by the restore, clear and [Combining...] of the ['c'] branch
    when that is how it ends. *)
Lemma loop_spec (fuel : nat) :
  ∀ (inp : list rd) (st : editor) (char0 : option (list N)) evs char st' s,
    wf st → (length inp ≤ fuel)%nat →
    loop fuel inp st char0 = (evs, (char, st', s)) →
    wf st' ∧ mp3_files st' ≡ₚ mp3_files st
    ∧ s ≠ OutOfFuel ∧ s ≠ Raising IndexError
    ∧ ∃ draws, Forall (λ e, is_draw e = true) draws
        ∧ ((s = Normal ∧ char = Some [ord "c"]
            ∧ evs = draws ++ [Restore; Clear; Print Combining])
           ∨ ((s = Normal → char = Some [ord "q"]) ∧ evs = draws)).
Proof.
  induction fuel as [|fuel IH]; intros inp st char0 evs char st' s Hwf Hlen Hloop.
  - destruct inp; [|simpl in Hlen; lia]. simpl in Hloop. simplify_eq.
    do 4 (split; [done|]). exists []. split; [constructor|]. by right.
  - destruct inp as [|r inp0].
    { simpl in Hloop. simplify_eq.
      do 4 (split; [done|]). exists []. split; [constructor|]. by right. }
    set (inp := r :: inp0) in *.
    assert (Hne : inp ≠ []) by done.
    change (loop (S fuel) inp st char0)
      with (let '(char', evs, fl, inp') := iteration inp st char0 in
            match fl with
            | Next st' =>
                let '(evs', r) := loop fuel inp' st' char' in (evs ++ evs', r)
            | Break => (evs, (char', st, Normal))
            | Raise e => (evs, (char', st, Raising e))
            end) in Hloop.
    destruct (iteration_spec inp st char0) as (char1 & evs1 & fl & Hit & Hcmd).
    rewrite Hit in Hloop.
    pose proof (next_command_shorter inp Hne) as Hshort.
    assert (Hlen2 : (length (next_command inp).2 ≤ fuel)%nat) by (simpl in *; lia).
    destruct (fst (next_command inp)) as [c|e] eqn:Hfst.
    + destruct (apply_command_wf c st Hwf) as (st1 & Hst1 & Hwf1).
      pose proof (apply_command_perm c st st1 Hst1) as Hperm1.
      destruct c; rewrite ?Hst1 in Hcmd.
      1-3,6: destruct Hcmd as [-> ->];
        destruct (loop fuel (next_command inp).2 st1 char1)
          as [evs2 [[char2 st2] s2]] eqn:Hrec;
        simplify_eq;
        destruct (IH _ _ _ _ _ _ _ Hwf1 Hlen2 Hrec)
          as (Hwf2 & Hperm2 & Hf & Hi & draws & Hdraws & Hev);
        (split; [done|]); (split; [by rewrite Hperm2|]);
        (split; [done|]); (split; [done|]);
        exists (Draw st1 :: draws); (split; [by constructor|]);
        destruct Hev as [(-> & -> & ->) | [Hq ->]]; [by left | by right].
      * destruct Hcmd as (-> & -> & ->). simplify_eq.
        do 4 (split; [done|]). exists []. split; [constructor|]. by left.
      * destruct Hcmd as (-> & -> & ->). simplify_eq.
        do 4 (split; [done|]). exists []. split; [constructor|]. by right.
    + destruct Hcmd as [-> ->]. simplify_eq.
      split; [done|]. split; [done|]. split; [done|]. split.
      * intros H; simplify_eq.
        unfold next_command in Hfst. subst inp.
        destruct r as [c| |]; destruct inp0 as [|[c2| |] [|[c3| |] inp3]];
          cbn [read1] in Hfst; revert Hfst; split_ifs; cbn; intros; discriminate.
      * exists []. split; [constructor|]. by right.
Qed.

(** ** Combiner

    The decoder and the exporter stand for the files on disk and the audio
    library; the lemmas of this section hold for any. *)

Section collaborators.

Context (decode : string → decode_result) (export : AudioSegment → export_result).

Lemma tracks_app (a b : AudioSegment) : tracks (a ++ b) = (tracks a + tracks b)%nat.
Proof. unfold tracks. now rewrite filter_app, length_app. Qed.

Lemma gaps_app (ms : N) (a b : AudioSegment) :
  gaps ms (a ++ b) = (gaps ms a + gaps ms b)%nat.
Proof. unfold gaps. now rewrite filter_app, length_app. Qed.

Lemma audio_len_app (a b : AudioSegment) :
  audio_len (a ++ b) = audio_len a + audio_len b.
Proof. induction a as [|p a IH]; simpl; [reflexivity | rewrite IH; lia]. Qed.

Lemma audio_len_nonneg (a : AudioSegment) : 0 ≤ audio_len a.
Proof. induction a as [|[name ms|ms] a IH]; simpl; lia. Qed.

(** The combine loop prints progress lines and nothing else. *)
Lemma combine_loop_events n files :
  ∀ i acc evs r,
    combine_loop decode n i files acc = (evs, r) →
    Forall (λ e, is_progress e = true) evs.
Proof.
  induction files as [|f files IH]; intros i acc evs r H; simpl in H.
  - simplify_eq. constructor.
  - unfold read_mp3_file in H. destruct (decode f) as [ms| |].
    + destruct (i <? n - 1);
        destruct (combine_loop decode n (i + 1) files _) as [evs' r'] eqn:E;
        simplify_eq; repeat (constructor; [reflexivity|]); eapply IH; eauto.
    + destruct (combine_loop decode n (i + 1) files _) as [evs' r'] eqn:E;
        simplify_eq; repeat (constructor; [reflexivity|]); eapply IH; eauto.
    + simplify_eq. repeat constructor.
Qed.

(** When every file fails to decode, [combined_audio] is left as it was. *)
Lemma combine_loop_all_fail n files :
  (∀ f, f ∈ files → decode f = DecodeError) →
  ∀ i acc, ∃ evs, combine_loop decode n i files acc = (evs, inl acc).
Proof.
  induction files as [|f files IH]; intros Hall i acc; simpl.
  - eauto.
  - unfold read_mp3_file. rewrite (Hall f) by left.
    destruct (IH (λ g Hg, Hall g (list_elem_of_further _ _ _ Hg)) (i + 1) acc) as [evs ->].
    eauto.
Qed.

(** The loop ends with a value unless a decode raises something it does not
    catch. *)
Lemma combine_loop_completes n files :
  (∀ f, f ∈ files → decode f ≠ DecodeCrash) →
  ∀ i acc, ∃ evs r, combine_loop decode n i files acc = (evs, inl r).
Proof.
  induction files as [|f files IH]; intros Hall i acc; simpl.
  - eauto.
  - unfold read_mp3_file.
    pose proof (Hall f ltac:(left)) as Hf.
    pose proof (IH (λ g Hg, Hall g (list_elem_of_further _ _ _ Hg))) as IH'.
    destruct (decode f) as [ms| |]; [| |done].
    + destruct (i <? n - 1).
      * destruct (IH' (i + 1) ((acc ++ [Track f ms]) ++ generate_silence 3000))
          as (evs & r & ->). eauto.
      * destruct (IH' (i + 1) (acc ++ [Track f ms])) as (evs & r & ->). eauto.
    + destruct (IH' (i + 1) acc) as (evs & r & ->). eauto.
Qed.

Lemma tracks_track f ms : tracks [Track f ms] = 1%nat.
Proof. reflexivity. Qed.
Lemma tracks_silence d : tracks (generate_silence d) = 0%nat.
Proof. reflexivity. Qed.
Lemma gaps_track d f ms : gaps d [Track f ms] = 0%nat.
Proof. reflexivity. Qed.
Lemma gaps_silence : gaps 3000 (generate_silence 3000) = 1%nat.
Proof. reflexivity. Qed.

Lemma decoded_count_cons f files :
  decoded_count decode (f :: files)
  = ((if decodable decode f then 1 else 0) + decoded_count decode files)%nat.
Proof.
  unfold decoded_count. rewrite filter_cons.
  destruct (decodable decode f); [rewrite decide_True by done | rewrite decide_False by done];
    reflexivity.
Qed.

Lemma decoded_count_app l1 l2 :
  decoded_count decode (l1 ++ l2)
  = (decoded_count decode l1 + decoded_count decode l2)%nat.
Proof. unfold decoded_count. now rewrite filter_app, length_app. Qed.

(** What the loop appends: one track per file that decodes, and one gap of
    three seconds per file that decodes and is not at the last index of the
    list, whatever became of the files after it. *)
Lemma combine_loop_counts n files :
  ∀ i acc evs r,
    combine_loop decode n i files acc = (evs, inl r) →
    tracks r = (tracks acc + decoded_count decode files)%nat
    ∧ gaps 3000 r
      = (gaps 3000 acc + decoded_count decode (take (Z.to_nat (n - 1 - i)) files))%nat.
Proof.
  induction files as [|f files IH]; intros i acc evs r H; simpl in H.
  - simplify_eq. rewrite take_nil. unfold decoded_count. simpl. lia.
  - unfold read_mp3_file in H. rewrite decoded_count_cons.
    assert (Hd : decodable decode f = match decode f with Decoded _ => true | _ => false end)
      by reflexivity.
    destruct (decode f) as [ms| |] eqn:Ef; rewrite Hd.
    + destruct (i <? n - 1) eqn:Ei.
      * apply Z.ltb_lt in Ei.
        destruct (combine_loop decode n (i + 1) files _) as [evs' r'] eqn:E.
        simplify_eq. apply IH in E as [Ht Hg].
        rewrite Ht, Hg, !tracks_app, !gaps_app.
        replace (Z.to_nat (n - 1 - i)) with (S (Z.to_nat (n - 1 - (i + 1)))) by lia.
        rewrite firstn_cons, decoded_count_cons, Hd.
        rewrite tracks_track, tracks_silence, gaps_track, gaps_silence. lia.
      * apply Z.ltb_ge in Ei.
        destruct (combine_loop decode n (i + 1) files _) as [evs' r'] eqn:E.
        simplify_eq. apply IH in E as [Ht Hg].
        rewrite Ht, Hg, !tracks_app, !gaps_app.
        replace (Z.to_nat (n - 1 - i)) with 0%nat by lia.
        replace (Z.to_nat (n - 1 - (i + 1))) with 0%nat by lia.
        rewrite !take_0, tracks_track, gaps_track. unfold decoded_count. simpl. lia.
    + destruct (combine_loop decode n (i + 1) files _) as [evs' r'] eqn:E.
      simplify_eq. apply IH in E as [Ht Hg]. rewrite Ht, Hg.
      split; [reflexivity|]. f_equal.
      destruct (Z.to_nat (n - 1 - i)) as [|k] eqn:Ek.
      * replace (Z.to_nat (n - 1 - (i + 1))) with 0%nat by lia. now rewrite !take_0.
      * replace (Z.to_nat (n - 1 - (i + 1))) with k by lia.
        now rewrite firstn_cons, decoded_count_cons, Hd.
    + discriminate.
Qed.

Lemma decoded_count_all files :
  (∀ f, f ∈ files → decodable decode f = true) →
  decoded_count decode files = length files.
Proof.
  induction files as [|f files IH]; intros Hall; [reflexivity|].
  rewrite decoded_count_cons, (Hall f) by left. simpl. f_equal.
  apply IH. intros g Hg. apply Hall. now right.
Qed.

Lemma decodable_not_crash f : decodable decode f = true → decode f ≠ DecodeCrash.
Proof. unfold decodable. now destruct (decode f). Qed.

(** The counts for a whole run of the combine loop: a track per decoded
    file, and a gap per decoded file among all but the last of the list. *)
Lemma combine_counts files evs r :
  combine decode files = (evs, inl r) →
  tracks r = decoded_count decode files
  ∧ gaps 3000 r = decoded_count decode (take (length files - 1) files).
Proof.
  unfold combine. intros H. apply combine_loop_counts in H as [Ht Hg].
  split; [exact Ht|]. rewrite Hg. simpl. do 2 f_equal. unfold len. lia.
Qed.

(** A single failing file that is not the last of the list: one track
    fewer, and a gap between each two tracks. *)
Lemma combine_one_failure_inside pre f post :
  (∀ g, g ∈ pre ++ post → decodable decode g = true) →
  decode f = DecodeError → post ≠ [] →
  ∃ evs r, combine decode (pre ++ f :: post) = (evs, inl r)
    ∧ tracks r = (length (pre ++ f :: post) - 1)%nat
    ∧ gaps 3000 r = (length (pre ++ f :: post) - 2)%nat.
Proof.
  intros Hall Hf Hpost.
  destruct (combine_loop_completes (len (pre ++ f :: post)) (pre ++ f :: post))
    with (i := 0) (acc := empty_audio) as (evs & r & Hrun).
  { intros g [Hg|Hg]%elem_of_app.
    - apply decodable_not_crash, Hall, elem_of_app. now left.
    - apply elem_of_cons in Hg as [->|Hg]; [now rewrite Hf|].
      apply decodable_not_crash, Hall, elem_of_app. now right. }
  exists evs, r. split; [exact Hrun|].
  apply combine_counts in Hrun as [-> ->].
  assert (Hdf : decodable decode f = false) by (unfold decodable; now rewrite Hf).
  destruct post as [|p post]; [done|].
  rewrite !length_app; simpl.
  replace (length pre + S (S (length post)) - 1)%nat
    with (length pre + S (length post))%nat by lia.
  rewrite take_app_ge by lia.
  replace (length pre + S (length post) - length pre)%nat with (S (length post)) by lia.
  rewrite firstn_cons, !decoded_count_app, !decoded_count_cons, Hdf.
  rewrite (decoded_count_all pre)
    by (intros g Hg; apply Hall, elem_of_app; now left).
  assert (Hp : ∀ g, g ∈ p :: post → decodable decode g = true)
    by (intros g Hg; apply Hall, elem_of_app; now right).
  rewrite (Hp p) by left.
  rewrite (decoded_count_all post) by (intros g Hg; apply Hp; now right).
  rewrite (decoded_count_all (take (length post) (p :: post))).
  2:{ intros g Hg. apply Hp. eapply subseteq_take; eauto. }
  rewrite length_take; simpl. lia.
Qed.

(** A failing last file: the silence appended after the file before it
    stays, so there are as many gaps as tracks. *)
Lemma combine_last_fails pre f :
  (∀ g, g ∈ pre → decodable decode g = true) →
  decode f = DecodeError →
  ∃ evs r, combine decode (pre ++ [f]) = (evs, inl r)
    ∧ tracks r = length pre
    ∧ gaps 3000 r = length pre.
Proof.
  intros Hall Hf.
  destruct (combine_loop_completes (len (pre ++ [f])) (pre ++ [f]))
    with (i := 0) (acc := empty_audio) as (evs & r & Hrun).
  { intros g [Hg|Hg]%elem_of_app.
    - now apply decodable_not_crash, Hall.
    - apply list_elem_of_singleton in Hg as ->. now rewrite Hf. }
  exists evs, r. split; [exact Hrun|].
  apply combine_counts in Hrun as [-> ->].
  assert (Hdf : decodable decode f = false) by (unfold decodable; now rewrite Hf).
  rewrite length_app; simpl.
  replace (length pre + 1 - 1)%nat with (length pre) by lia.
  rewrite take_app_length, decoded_count_app, decoded_count_cons, Hdf.
  rewrite (decoded_count_all pre Hall). unfold decoded_count; simpl. lia.
Qed.

(** ** Traces *)

Lemma restores_app (a b : list event) : restores (a ++ b) = (restores a + restores b)%nat.
Proof. unfold restores. now rewrite filter_app, length_app. Qed.

Lemma exports_app (a b : list event) : exports (a ++ b) = (exports a + exports b)%nat.
Proof. unfold exports. now rewrite filter_app, length_app. Qed.

Lemma mode_after_app (m : mode) (a b : list event) :
  mode_after m (a ++ b) = mode_after (mode_after m a) b.
Proof. unfold mode_after. apply foldl_app. Qed.

(** Events of a kind that never satisfies [p] are not counted by [p]. *)
Lemma count_none (p q : event → bool) (evs : list event) :
  (∀ e, q e = true → p e = false) →
  Forall (λ e, q e = true) evs →
  length (filter (λ e, p e = true) evs) = 0%nat.
Proof.
  intros Hpq. induction 1 as [|e evs He _ IH]; [reflexivity|].
  rewrite filter_cons, decide_False; [exact IH|]. rewrite (Hpq e He). done.
Qed.

Lemma progress_restores evs : Forall (λ e, is_progress e = true) evs → restores evs = 0%nat.
Proof. apply count_none. now intros [| | | |[]|]. Qed.

Lemma progress_exports evs : Forall (λ e, is_progress e = true) evs → exports evs = 0%nat.
Proof. apply count_none. now intros [| | | |[]|]. Qed.

Lemma draws_restores evs : Forall (λ e, is_draw e = true) evs → restores evs = 0%nat.
Proof. apply count_none. now intros []. Qed.

Lemma draws_exports evs : Forall (λ e, is_draw e = true) evs → exports evs = 0%nat.
Proof. apply count_none. now intros []. Qed.

Lemma progress_not_elem evs m :
  Forall (λ e, is_progress e = true) evs →
  is_progress (Print m) = false → Print m ∉ evs.
Proof.
  intros Hall Hm Hin. rewrite Forall_forall in Hall.
  apply Hall in Hin. congruence.
Qed.

Lemma draws_not_elem evs m : Forall (λ e, is_draw e = true) evs → Print m ∉ evs.
Proof.
  intros Hall Hin. rewrite Forall_forall in Hall. apply Hall in Hin. discriminate.
Qed.

(** ** The combine phase *)

(** The combine phase in full: the announcement, the progress lines of the
    loop, and one of five endings. *)
Lemma combine_phase_cases files :
  ∃ evs tail s,
    combine_phase decode export files
      = ([Print (Order files); Print OutputPath] ++ evs ++ tail, s)
    ∧ Forall (λ e, is_progress e = true) evs
    ∧ ((tail = [] ∧ s = Raising LibraryError
        ∧ ∃ evs', combine decode files = (evs', inr LibraryError))
       ∨ ∃ combined, combine decode files = (evs, inl combined)
          ∧ ((audio_len combined = 0 ∧ tail = [Print NoValidFiles]
              ∧ s = Raising (SystemExit 1))
             ∨ (0 < audio_len combined
                ∧ ((tail = [Print Saving; Export combined; Print Saved;
                            Print (Duration combined)] ∧ s = Normal)
                   ∨ (tail = [Print Saving; Export combined; Print WriteError]
                      ∧ s = Raising (SystemExit 1))
                   ∨ (tail = [Print Saving; Export combined]
                      ∧ s = Raising LibraryError))))).
Proof.
  unfold combine_phase.
  destruct (combine decode files) as [evs [combined|e]] eqn:Hrun.
  - pose proof (combine_loop_events _ _ _ _ _ _ Hrun) as Hev.
    pose proof (audio_len_nonneg combined) as Hnn.
    destruct (audio_len combined >? 0) eqn:Hlen.
    + apply Z.gtb_lt in Hlen.
      destruct (export combined); exists evs; eexists; eexists;
        (split; [reflexivity|]); (split; [exact Hev|]);
        right; exists combined; (split; [reflexivity|]); right; (split; [exact Hlen|]);
        [left | right; left | right; right]; done.
    + assert (audio_len combined = 0).
      { destruct (Z.gtb_spec (audio_len combined) 0); [discriminate | lia]. }
      exists evs; eexists; eexists.
      split; [reflexivity|]. split; [exact Hev|].
      right; exists combined. split; [reflexivity|]. left. done.
  - pose proof (combine_loop_events _ _ _ _ _ _ Hrun) as Hev.
    assert (e = LibraryError) as ->.
    { clear Hev. unfold combine in Hrun. revert Hrun.
      generalize (len files) 0 empty_audio. revert evs.
      induction files as [|f files IH]; intros evs n i acc H; simpl in H; [discriminate|].
      unfold read_mp3_file in H. destruct (decode f); [destruct (i <? n - 1)| |];
        try (destruct (combine_loop decode n (i + 1) files _) as [evs' r'] eqn:E;
             simplify_eq; eapply IH; eauto);
        now simplify_eq. }
    exists evs, [], (Raising LibraryError).
    split; [now rewrite app_nil_r|]. split; [exact Hev|]. left. eauto.
Qed.

Lemma combine_phase_status files :
  (combine_phase decode export files).2 = Normal
  ∨ ∃ e, (combine_phase decode export files).2 = Raising e.
Proof.
  destruct (combine_phase_cases files) as (evs & tail & s & -> & _ & H).
  simpl. destruct H as [(_ & -> & _) | (c & _ & [(_ & _ & ->) | (_ & [[_ ->] | [[_ ->] | [_ ->]]])])];
    eauto.
Qed.

Lemma combine_phase_restores files :
  restores (combine_phase decode export files).1 = 0%nat.
Proof.
  destruct (combine_phase_cases files) as (evs & tail & s & -> & Hev & H).
  cbn [fst]. rewrite !restores_app, (progress_restores evs Hev).
  destruct H as [(-> & _) | (c & _ & [(_ & -> & _) | (_ & [[-> _] | [[-> _] | [-> _]]])])];
    reflexivity.
Qed.

Lemma combine_phase_not_combining files :
  Print Combining ∉ (combine_phase decode export files).1.
Proof.
  destruct (combine_phase_cases files) as (evs & tail & s & -> & Hev & H).
  cbn [fst]. pose proof (progress_not_elem evs Combining Hev eq_refl) as Hn.
  destruct H as [(-> & _) | (c & _ & [(_ & -> & _) | (_ & [[-> _] | [[-> _] | [-> _]]])])];
    rewrite !elem_of_app, !elem_of_cons, ?elem_of_nil; intuition discriminate.
Qed.

(** ** The session *)

(** The three ways a session goes.  The user leaves the loop with ['c']:
    the terminal is restored in that branch, the combine phase runs on the
    list as the editor left it, and [finally] restores once more.  Or the
    loop ends with ['q'] or an exception, and [finally] restores.  Or the
    input ends and the loop never exits. *)
Lemma session_cases inp files :
  ∃ draws st,
    Forall (λ e, is_draw e = true) draws ∧ wf st ∧ mp3_files st ≡ₚ files
    ∧ (session decode export inp files
         = ([SetRaw; Draw (initial files)] ++ draws
              ++ [Restore; Clear; Print Combining]
              ++ (combine_phase decode export (mp3_files st)).1 ++ [Restore],
            (combine_phase decode export (mp3_files st)).2)
       ∨ (∃ fin s,
             session decode export inp files
               = ([SetRaw; Draw (initial files)] ++ draws ++ fin, s)
             ∧ (fin = [Restore] ∨ fin = [Restore; Clear; Print Exiting])
             ∧ (s = Normal ∨ ∃ e, s = Raising e))
       ∨ session decode export inp files
           = ([SetRaw; Draw (initial files)] ++ draws, Diverges)).
Proof.
  unfold session, try_block.
  destruct (loop (length inp) inp (initial files) None) as [evs [[char st] s]] eqn:Hloop.
  destruct (loop_spec _ _ _ _ _ _ _ _ (initial_wf files) (le_n _) Hloop)
    as (Hwf & Hperm & Hfuel & _ & draws & Hdraws & Hev).
  exists draws, st. split; [exact Hdraws|]. split; [exact Hwf|]. split; [exact Hperm|].
  destruct Hev as [(-> & -> & ->) | [Hq ->]].
  - left. rewrite bool_decide_true by done.
    destruct (combine_phase decode export (mp3_files st)) as [evs2 s2] eqn:Hcp.
    pose proof (combine_phase_status (mp3_files st)) as Hs2.
    rewrite Hcp in Hs2. simpl in Hs2.
    destruct Hs2 as [-> | [e ->]]; unfold finally;
      change (is_chr [ord "c"] "c") with true; cbn [fst snd];
      rewrite <- !app_assoc; reflexivity.
  - destruct s as [|e| |].
    + right; left. rewrite (Hq eq_refl).
      rewrite bool_decide_false by discriminate.
      exists [Restore; Clear; Print Exiting], Normal.
      split; [reflexivity|]. split; [now right | now left].
    + right; left. unfold finally.
      destruct char as [c|].
      * destruct (is_chr c "c"); eexists; eexists;
          (split; [rewrite <- app_assoc; reflexivity|]); split; eauto.
      * eexists; eexists; (split; [rewrite <- app_assoc; reflexivity|]); split; eauto.
    + right; right. simpl. now rewrite app_nil_r.
    + done.
Qed.

End collaborators.

(** * The claims *)

(** C1. The claim: when exactly one of N files fails to decode, the output
    holds N-1 tracks and N-2 gaps, never N-1 gaps.  The loop appends the
    silence by the index in the original list ([i < len(mp3_files) - 1]), so
    when the failing file is the last one the silence after the file before
    it stays: for [a.mp3, c.mp3, b.mp3] with [b.mp3] failing the output is
    track, gap, track, gap, that is 2 tracks and 2 gaps where 3 - 2 = 1 is
    claimed.  ([combine_one_failure_inside] and [combine_last_fails] give
    the counts for every list.) *)
Theorem trailing_gap_when_last_file_fails :
  (combine only_b_fails ["a.mp3"; "c.mp3"; "b.mp3"]%string).2
    = inl [Track "a.mp3" 1000; Silence 3000; Track "c.mp3" 1000; Silence 3000]
  ∧ tracks [Track "a.mp3" 1000; Silence 3000; Track "c.mp3" 1000; Silence 3000] = 2%nat
  ∧ gaps 3000 [Track "a.mp3" 1000; Silence 3000; Track "c.mp3" 1000; Silence 3000] = 2%nat.
Proof. vm_compute. auto. Qed.

(** C2, as stated, fails: on the combine path the terminal settings are
    restored twice, once in the ['c'] branch and once in [finally]. *)
Lemma combine_path_restores_twice :
  restores (session all_decode always_exported key_c ["a.mp3"%string]).1 = 2%nat
  ∧ (session all_decode always_exported key_c ["a.mp3"%string]).2 = Normal.
Proof. vm_compute. auto. Qed.

(** C2, amended.  On every exit from the interactive loop (quit, combine,
    an exception or interrupt) the saved terminal settings are restored and
    the terminal ends in its original mode; the restore runs once when the
    loop was not left through ['c'], and twice when it was (in the ['c']
    branch before printing, and again in [finally]). *)
Theorem restore_on_every_exit decode export inp files tr s :
  session decode export inp files = (tr, s) →
  s ≠ Diverges →
  restores tr = (if bool_decide (Print Combining ∈ tr) then 2 else 1)%nat
  ∧ mode_after Cooked tr = Cooked
  ∧ s ≠ OutOfFuel.
Proof.
  intros Hrun Hexit.
  destruct (session_cases decode export inp files)
    as (draws & st & Hdraws & _ & _ & [Hc | [(fin & s' & Hq & Hfin & Hs) | Hd]]);
    rewrite Hrun in *; simplify_eq.
  - split; [|split].
    + rewrite bool_decide_true
        by (rewrite !elem_of_app, !elem_of_cons; intuition).
      rewrite !restores_app, (draws_restores draws Hdraws), combine_phase_restores.
      reflexivity.
    + rewrite !app_assoc, mode_after_app. reflexivity.
    + destruct (combine_phase_status decode export (mp3_files st)) as [-> | [e ->]]; done.
  - pose proof (draws_not_elem draws Combining Hdraws) as Hn.
    split; [|split].
    + rewrite bool_decide_false.
      2:{ destruct Hfin as [-> | ->];
            rewrite !elem_of_app, !elem_of_cons, ?elem_of_nil; intuition discriminate. }
      rewrite !restores_app, (draws_restores draws Hdraws).
      destruct Hfin as [-> | ->]; reflexivity.
    + rewrite !app_assoc, mode_after_app. destruct Hfin as [-> | ->]; reflexivity.
    + destruct Hs as [-> | [e ->]]; done.
Qed.

Lemma restore_on_every_exit_witness :
  restores (session all_decode always_exported key_q ["a.mp3"%string]).1 = 1%nat
  ∧ mode_after Cooked (session all_decode always_exported key_q ["a.mp3"%string]).1 = Cooked
  ∧ (session all_decode always_exported key_q ["a.mp3"%string]).2 ≠ OutOfFuel.
Proof.
  apply (restore_on_every_exit all_decode always_exported key_q ["a.mp3"%string]).
  - vm_compute. reflexivity.
  - vm_compute. discriminate.
Defined.

(** C3. For every initial file list and every finite sequence of commands,
    the editor's sequence afterwards is a permutation of the initial list:
    no command inserts, deletes or duplicates an entry.  The same holds of
    the list the interactive loop ends with, whatever is typed, and the loop
    never indexes the list out of range. *)
Theorem sequence_is_permutation (files : list string) :
  (∀ cs : list command,
      ∃ st, run_commands cs (initial files) = Some st ∧ mp3_files st ≡ₚ files)
  ∧ (∀ inp : list rd,
      ∃ evs char st s,
        loop (length inp) inp (initial files) None = (evs, (char, st, s))
        ∧ mp3_files st ≡ₚ files ∧ s ≠ Raising IndexError ∧ s ≠ OutOfFuel).
Proof.
  split.
  - intros cs.
    destruct (run_commands_wf cs (initial files) (initial_wf files))
      as (st & Hrun & _ & Hperm).
    exists st. split; [exact Hrun | exact Hperm].
  - intros inp.
    destruct (loop (length inp) inp (initial files) None) as [evs [[char st] s]] eqn:Hloop.
    destruct (loop_spec _ _ _ _ _ _ _ _ (initial_wf files) (le_n _) Hloop)
      as (_ & Hperm & Hfuel & Hidx & _).
    exists evs, char, st, s. auto.
Qed.

(** C4. When every file fails to decode, the combine phase reports that no
    valid MP3 file could be processed, exits with status 1 and never calls
    [export]; so does every session on those files in which the user
    presses ['c'], and no session on them exports anything. *)
Theorem all_fail_no_export decode export files :
  (∀ f, f ∈ files → decode f = DecodeError) →
  (∃ evs, combine_phase decode export files
          = ([Print (Order files); Print OutputPath] ++ evs ++ [Print NoValidFiles],
             Raising (SystemExit 1))
          ∧ Forall (λ e, is_progress e = true) evs)
  ∧ exit_code (combine_phase decode export files).2 = Some 1
  ∧ exports (combine_phase decode export files).1 = 0%nat
  ∧ (∀ inp,
       exports (session decode export inp files).1 = 0%nat
       ∧ (Print Combining ∈ (session decode export inp files).1 →
          (session decode export inp files).2 = Raising (SystemExit 1)
          ∧ Print NoValidFiles ∈ (session decode export inp files).1)).
Proof.
  intros Hall.
  assert (Hphase : ∀ l, l ≡ₚ files →
            ∃ evs, combine_phase decode export l
                   = ([Print (Order l); Print OutputPath] ++ evs ++ [Print NoValidFiles],
                      Raising (SystemExit 1))
                   ∧ Forall (λ e, is_progress e = true) evs).
  { intros l Hl.
    assert (Hall' : ∀ f, f ∈ l → decode f = DecodeError)
      by (intros f Hf; apply Hall; now rewrite <- Hl).
    destruct (combine_loop_all_fail decode (len l) l Hall' 0 empty_audio) as [evs Hrun].
    exists evs. unfold combine_phase, combine. rewrite Hrun. simpl.
    split; [reflexivity|]. eapply combine_loop_events; eauto. }
  destruct (Hphase files (reflexivity _)) as (evs & Hcp & Hev).
  split; [eauto|]. rewrite Hcp. cbn [fst snd].
  split; [reflexivity|]. split.
  { rewrite !exports_app, (progress_exports evs Hev). reflexivity. }
  intros inp.
  destruct (session_cases decode export inp files)
    as (draws & st & Hdraws & _ & Hperm & [Hc | [(fin & s' & Hq & Hfin & Hs) | Hd]]).
  - destruct (Hphase _ Hperm) as (evs' & Hcp' & Hev').
    rewrite Hc, Hcp'. cbn [fst snd]. split.
    + rewrite !exports_app, (draws_exports draws Hdraws), (progress_exports evs' Hev').
      reflexivity.
    + intros _. split; [reflexivity|].
      rewrite !elem_of_app, !elem_of_cons. intuition.
  - pose proof (draws_not_elem draws Combining Hdraws) as Hn.
    rewrite Hq. cbn [fst snd]. split.
    + rewrite !exports_app, (draws_exports draws Hdraws).
      destruct Hfin as [-> | ->]; reflexivity.
    + intros Hin. exfalso. revert Hin.
      destruct Hfin as [-> | ->];
        rewrite !elem_of_app, !elem_of_cons, ?elem_of_nil; intuition discriminate.
  - pose proof (draws_not_elem draws Combining Hdraws) as Hn.
    rewrite Hd. cbn [fst snd]. split.
    + rewrite !exports_app, (draws_exports draws Hdraws). reflexivity.
    + intros Hin. exfalso. revert Hin.
      rewrite !elem_of_app, !elem_of_cons, ?elem_of_nil. intuition discriminate.
Qed.

Lemma all_fail_no_export_witness :
  exit_code (combine_phase all_fail always_exported ["a.mp3"; "b.mp3"]%string).2 = Some 1
  ∧ exports (combine_phase all_fail always_exported ["a.mp3"; "b.mp3"]%string).1 = 0%nat.
Proof.
  destruct (all_fail_no_export all_fail always_exported ["a.mp3"; "b.mp3"]%string)
    as (_ & Hcode & Hexp & _).
  - intros f _. reflexivity.
  - split; [exact Hcode | exact Hexp].
Defined.

(** C5. From [A, B, C] with the focus on the first item and nothing picked,
    Enter, Down, Down, Enter, ['c'] leaves the order [B, C, A], and the
    combine phase runs on exactly that order (whatever the decoder and the
    exporter do): it announces [B, C, A] and decodes B, then C, then A. *)
Theorem scenario_drag_first_to_last decode export :
  run_commands [TogglePick; MoveDown; MoveDown; TogglePick; Combine]
      (initial ["A"; "B"; "C"]%string)
    = Some {| mp3_files := ["B"; "C"; "A"]%string;
              focused_index := 2;
              selected_index := None |}
  ∧ (∃ draws,
       Forall (λ e, is_draw e = true) draws
       ∧ session decode export
           (key_enter ++ key_down ++ key_down ++ key_enter ++ key_c)
           ["A"; "B"; "C"]%string
         = ([SetRaw] ++ draws ++ [Restore; Clear; Print Combining]
              ++ (combine_phase decode export ["B"; "C"; "A"]%string).1 ++ [Restore],
            (combine_phase decode export ["B"; "C"; "A"]%string).2))
  ∧ (∃ evs tail,
       (combine_phase decode export ["B"; "C"; "A"]%string).1
         = [Print (Order ["B"; "C"; "A"]%string); Print OutputPath] ++ evs ++ tail
       ∧ (combine all_decode ["B"; "C"; "A"]%string).2
         = inl [Track "B" 1000; Silence 3000; Track "C" 1000; Silence 3000;
                Track "A" 1000]).
Proof.
  split; [vm_compute; reflexivity|]. split.
  - unfold session, try_block.
    assert (Hloop :
      loop (length (key_enter ++ key_down ++ key_down ++ key_enter ++ key_c))
           (key_enter ++ key_down ++ key_down ++ key_enter ++ key_c)
           (initial ["A"; "B"; "C"]%string) None
      = ([Draw (Editor ["A"; "B"; "C"]%string 0 (Some 0));
          Draw (Editor ["B"; "A"; "C"]%string 1 (Some 1));
          Draw (Editor ["B"; "C"; "A"]%string 2 (Some 2));
          Draw (Editor ["B"; "C"; "A"]%string 2 None);
          Restore; Clear; Print Combining],
         (Some [ord "c"], Editor ["B"; "C"; "A"]%string 2 None, Normal)))
      by (vm_compute; reflexivity).
    rewrite Hloop. rewrite bool_decide_true by reflexivity. cbn [mp3_files].
    destruct (combine_phase decode export ["B"; "C"; "A"]%string) as [evs2 s2] eqn:Hcp.
    pose proof (combine_phase_status decode export ["B"; "C"; "A"]%string) as Hs2.
    rewrite Hcp in Hs2. cbn [snd] in Hs2.
    exists [Draw (initial ["A"; "B"; "C"]%string);
            Draw (Editor ["A"; "B"; "C"]%string 0 (Some 0));
            Draw (Editor ["B"; "A"; "C"]%string 1 (Some 1));
            Draw (Editor ["B"; "C"; "A"]%string 2 (Some 2));
            Draw (Editor ["B"; "C"; "A"]%string 2 None)].
    split; [repeat constructor|].
    destruct Hs2 as [-> | [e ->]]; unfold finally;
      change (is_chr [ord "c"] "c") with true; cbn [fst snd];
      rewrite <- !app_assoc; reflexivity.
  - destruct (combine_phase_cases decode export ["B"; "C"; "A"]%string)
      as (evs & tail & s & -> & _).
    exists evs, tail. split; [reflexivity | vm_compute; reflexivity].
Qed.

(** C6, as stated, fails.  ESC followed by a character other than ['[']
    takes two characters from the stream (the second is swallowed), neither
    one nor three; and the decoder does fail, with the exception of the read,
    when the bytes that arrive do not decode to a character. *)
Lemma escape_then_plain_consumes_two :
  consumed [Key (ord "027"); Key (ord "q")] = 2%nat
  ∧ next_command [Key (ord "027"); Key (ord "q")] = (inl Ignore, [])
  ∧ next_command [Undecodable] = (inr UnicodeDecodeError, [])
  ∧ next_command [Key (ord "027"); Undecodable; Key (ord "q")]
    = (inr UnicodeDecodeError, [Key (ord "q")]).
Proof. vm_compute. auto. Qed.

(** C6, amended, in reads of one character (a character being one or more
    raw bytes).  A call of the key decoder takes a prefix of at most three
    items off the stream: none at end of input, one for a plain character
    and for a lone ESC at end of input, two for ESC followed by a character
    other than ['['] and for ESC ['['] at end of input, three for
    ESC ['['] X.  A truncated sequence, ESC followed by another character,
    and ESC ['['] X with X other than ['A'] and ['B'] decode to [Ignore].
    The decoder raises nothing of its own: a call fails exactly when the
    last read it made raised (an interrupt, or bytes that do not decode),
    and then with that exception; on a stream of characters it never
    fails. *)
Theorem next_command_consumption (inp : list rd) :
  (consumed inp ≤ 3)%nat
  ∧ (next_command inp).2 = drop (consumed inp) inp
  ∧ (∀ e, (next_command inp).1 = inr e
          ↔ ∃ r, last (take (consumed inp) inp) = Some r ∧ raised r = Some e)
  ∧ (Forall (λ r, raised r = None) inp → ∃ cmd, (next_command inp).1 = inl cmd)
  ∧ (inp = [] → consumed inp = 0%nat ∧ (next_command inp).1 = inl Ignore)
  ∧ (∀ c rest, inp = Key c :: rest → c ≠ ord "027" →
       consumed inp = 1%nat ∧ ∃ cmd, (next_command inp).1 = inl cmd)
  ∧ (inp = [Key (ord "027")] →
       consumed inp = 1%nat ∧ (next_command inp).1 = inl Ignore)
  ∧ (∀ c rest, inp = Key (ord "027") :: Key c :: rest → c ≠ ord "[" →
       consumed inp = 2%nat ∧ (next_command inp).1 = inl Ignore)
  ∧ (inp = [Key (ord "027"); Key (ord "[")] →
       consumed inp = 2%nat ∧ (next_command inp).1 = inl Ignore)
  ∧ (∀ x rest, inp = Key (ord "027") :: Key (ord "[") :: Key x :: rest →
       consumed inp = 3%nat
       ∧ (next_command inp).1
         = inl (if (x =? ord "A")%N then MoveUp
                else if (x =? ord "B")%N then MoveDown else Ignore)).
Proof.
  assert (Hlen : ∀ (l : list rd) a, (length (a :: l) - length l = 1)%nat)
    by (intros; simpl; lia).
  assert (Hlen2 : ∀ (l : list rd) a b, (length (a :: b :: l) - length l = 2)%nat)
    by (intros; simpl; lia).
  assert (Hlen3 : ∀ (l : list rd) a b c, (length (a :: b :: c :: l) - length l = 3)%nat)
    by (intros; simpl; lia).
  assert (Hcases :
    (next_command inp).2 = drop (consumed inp) inp
    ∧ ∀ e, (next_command inp).1 = inr e
           ↔ ∃ r, last (take (consumed inp) inp) = Some r ∧ raised r = Some e).
  { unfold consumed, next_command.
    destruct inp as [|[c| |] [|[c2| |] [|[c3| |] rest]]]; cbn [read1];
      split_ifs; cbn [fst snd]; rewrite ?Hlen, ?Hlen2, ?Hlen3;
      (split; [reflexivity|]); intros e; cbn [take last length Nat.sub];
      (split; [intros [= <-]; eexists; split; reflexivity
              | intros (r & [= <-] & [= <-]); reflexivity]). }
  destruct Hcases as [Hrest Hfail].
  split.
  { unfold consumed. destruct (next_command_rest inp) as (k & Hk & -> & _).
    rewrite length_drop. lia. }
  split; [exact Hrest|]. split; [exact Hfail|]. split.
  { intros Hall. destruct (next_command inp).1 as [cmd|e] eqn:Hfst; [eauto|].
    destruct (proj1 (Hfail e) eq_refl) as (r & Hlast & Hr).
    apply last_Some_elem_of, elem_of_take in Hlast as (i & Hi & _).
    apply list_elem_of_lookup_2 in Hi.
    rewrite Forall_forall in Hall. rewrite (Hall r Hi) in Hr. discriminate. }
  split; [intros ->; split; reflexivity|].
  split.
  { intros c rest -> Hc. unfold consumed.
    destruct (next_command_plain c rest Hc) as [cmd ->]. split; [apply Hlen | eauto]. }
  split; [intros ->; split; reflexivity|].
  split.
  { intros c rest -> Hc. unfold consumed.
    rewrite (next_command_esc_other c rest Hc).
    split; [apply Hlen2 | reflexivity]. }
  split; [intros ->; split; reflexivity|].
  intros x rest ->. unfold consumed.
  rewrite (next_command_arrow x rest).
  split; [apply Hlen3 | reflexivity].
Qed.

(** C7. At the boundaries the arrow keys change nothing and raise nothing:
    Up with the focus on the first item and Down with the focus on the last
    one while nothing is picked, Up with the first item picked and Down with
    the last item picked, leave the sequence, the focus and the pick as they
    were. *)
Theorem boundary_moves_are_noops (files : list string) (focus : Z) :
  apply_command MoveUp (Editor files 0 None) = Some (Editor files 0 None)
  ∧ apply_command MoveDown (Editor files (len files - 1) None)
    = Some (Editor files (len files - 1) None)
  ∧ apply_command MoveUp (Editor files focus (Some 0))
    = Some (Editor files focus (Some 0))
  ∧ apply_command MoveDown (Editor files focus (Some (len files - 1)))
    = Some (Editor files focus (Some (len files - 1))).
Proof.
  split; [reflexivity|]. split; [|split].
  - cbn [apply_command arrow_down selected_index mp3_files focused_index].
    do 2 f_equal. lia.
  - reflexivity.
  - cbn [apply_command arrow_down selected_index mp3_files focused_index].
    now rewrite Z.ltb_irrefl.
Qed.

(** C8. With nothing picked, Enter followed by Enter gives back the same
    state: same sequence, same focus, nothing picked. *)
Theorem pick_then_unpick_is_identity (files : list string) (focus : Z) :
  run_commands [TogglePick; TogglePick] (Editor files focus None)
  = Some (Editor files focus None)
  ∧ enter (enter (Editor files focus None)) = Editor files focus None
  ∧ selected_index (enter (Editor files focus None)) = Some focus.
Proof. repeat split. Qed.

(** C9. For every directory listing, [list_mp3_files] returns the entries
    whose lowercased name ends with [.mp3], and only those, each as often as
    the listing holds it (so without duplicates, as the names of a directory
    are distinct), in ascending lexicographic order; the listing
    [b.mp3, a.MP3, c.txt] gives [a.MP3, b.mp3]. *)
Theorem list_mp3_files_spec (all_items : list string) :
  StronglySorted String.le (list_mp3_files all_items)
  ∧ list_mp3_files all_items
      ≡ₚ filter (λ file, endswith (lower file) ".mp3" = true) all_items
  ∧ (∀ file, file ∈ list_mp3_files all_items
             ↔ file ∈ all_items ∧ ∃ p, lower file = p +:+ ".mp3")
  ∧ (NoDup all_items → NoDup (list_mp3_files all_items))
  ∧ list_mp3_files ["b.mp3"; "a.MP3"; "c.txt"]%string = ["a.MP3"; "b.mp3"]%string.
Proof.
  split; [apply list_mp3_files_sorted|].
  split; [apply list_mp3_files_perm|].
  split; [|split].
  - intros file. rewrite list_mp3_files_perm, list_elem_of_filter.
    unfold is_mp3. rewrite endswith_spec. tauto.
  - intros Hnd. rewrite list_mp3_files_perm. now apply NoDup_filter.
  - vm_compute. reflexivity.
Qed.

Lemma list_mp3_files_spec_witness :
  NoDup (list_mp3_files ["b.mp3"; "a.MP3"; "c.txt"]%string).
Proof.
  apply (list_mp3_files_spec ["b.mp3"; "a.MP3"; "c.txt"]%string).
  apply (bool_decide_unpack _). vm_compute. exact I.
Defined.

(** C10. The guard before the export tests the length of the combined
    audio, not the number of decoded files: when the combine loop finishes,
    the no-valid-files error is reported exactly when that length is zero.
    So a folder with a single file that decodes to audio of length zero ends
    with that error and exit status 1 although one file decoded. *)
Theorem no_valid_files_iff_zero_length :
  (∀ decode export files evs combined,
      combine decode files = (evs, inl combined) →
      (Print NoValidFiles ∈ (combine_phase decode export files).1
       ↔ audio_len combined = 0)
      ∧ (audio_len combined = 0 →
         (combine_phase decode export files).2 = Raising (SystemExit 1)
         ∧ exports (combine_phase decode export files).1 = 0%nat))
  ∧ decoded_count (decoder silent_world) (list_mp3_files (listdir silent_world)) = 1%nat
  ∧ Print NoValidFiles ∈ (main silent_world).1
  ∧ (main silent_world).2 = Raising (SystemExit 1)
  ∧ exit_code (main silent_world).2 = Some 1
  ∧ exports (main silent_world).1 = 0%nat.
Proof.
  split.
  - intros decode export files evs combined Hrun.
    destruct (combine_phase_cases decode export files)
      as (evs' & tail & s & Hcp & Hev & H).
    rewrite Hcp. cbn [fst snd]. rewrite Hrun in H.
    pose proof (progress_not_elem evs' NoValidFiles Hev eq_refl) as Hn.
    destruct H as [(_ & _ & evs'' & Hbad) | (c & Hc & H)]; [discriminate|].
    simplify_eq.
    destruct H as [(Hz & -> & ->) | (Hpos & [[-> ->] | [[-> ->] | [-> ->]]])].
    + split.
      * split; [intros _; exact Hz|].
        intros _. rewrite !elem_of_app, !elem_of_cons. intuition.
      * intros _. split; [reflexivity|].
        rewrite !exports_app, (progress_exports evs' Hev). reflexivity.
    + split; [|intros Hz; lia]. split; [|intros Hz; lia].
      rewrite !elem_of_app, !elem_of_cons, ?elem_of_nil. intuition discriminate.
    + split; [|intros Hz; lia]. split; [|intros Hz; lia].
      rewrite !elem_of_app, !elem_of_cons, ?elem_of_nil. intuition discriminate.
    + split; [|intros Hz; lia]. split; [|intros Hz; lia].
      rewrite !elem_of_app, !elem_of_cons, ?elem_of_nil. intuition discriminate.
  - split; [vm_compute; reflexivity|].
    split; [|vm_compute; auto].
    apply (bool_decide_unpack _). vm_compute. exact I.
Qed.

(** * Further properties *)

(** ** FileLister *)

Lemma lower_app (s t : string) : lower (s +:+ t) = lower s +:+ lower t.
Proof. induction s as [|c s IH]; simpl; [reflexivity | now rewrite IH]. Qed.

Lemma lower_eq_app (f p t : string) :
  lower f = p +:+ t → ∃ f1 f2, f = f1 +:+ f2 ∧ lower f1 = p ∧ lower f2 = t.
Proof.
  revert f; induction p as [|c p IH]; intros f H.
  - exists EmptyString, f. auto.
  - destruct f as [|c0 f]; [discriminate|].
    simpl in H. injection H as Hc Hf.
    destruct (IH f Hf) as (f1 & f2 & -> & Hp & Ht).
    exists (String c0 f1), f2. simpl. rewrite Hc, Hp. auto.
Qed.

Lemma lower_char_dot (a : ascii) : lower_char a = "."%char → a = "."%char.
Proof.
  destruct a as [[|] [|] [|] [|] [|] [|] [|] [|]]; vm_compute; intros H;
    first [reflexivity | discriminate H].
Qed.

Lemma lower_char_3 (a : ascii) : lower_char a = "3"%char → a = "3"%char.
Proof.
  destruct a as [[|] [|] [|] [|] [|] [|] [|] [|]]; vm_compute; intros H;
    first [reflexivity | discriminate H].
Qed.

Lemma lower_char_m (a : ascii) : lower_char a = "m"%char → a = "m"%char ∨ a = "M"%char.
Proof.
  destruct a as [[|] [|] [|] [|] [|] [|] [|] [|]]; vm_compute; intros H;
    first [left; reflexivity | right; reflexivity | discriminate H].
Qed.

Lemma lower_char_p (a : ascii) : lower_char a = "p"%char → a = "p"%char ∨ a = "P"%char.
Proof.
  destruct a as [[|] [|] [|] [|] [|] [|] [|] [|]]; vm_compute; intros H;
    first [left; reflexivity | right; reflexivity | discriminate H].
Qed.

(** X2. A name passes the filter of [list_mp3_files] exactly when its last
    four characters are a dot, [m] or [M], [p] or [P], and [3]; what comes
    before them (even nothing) does not matter. *)
Theorem is_mp3_last_four (file : string) :
  is_mp3 file = true
  ↔ ∃ stem a b,
      file = stem +:+ String "." (String a (String b (String "3" EmptyString)))
      ∧ (a = "m" ∨ a = "M")%char ∧ (b = "p" ∨ b = "P")%char.
Proof.
  unfold is_mp3. rewrite endswith_spec. split.
  - intros [p Hp].
    destruct (lower_eq_app _ _ _ Hp) as (stem & ext & -> & _ & Hext).
    destruct ext as [|d [|a [|b [|c [|]]]]]; try discriminate.
    simpl in Hext. injection Hext as Hd Ha Hb Hc.
    apply lower_char_dot in Hd as ->. apply lower_char_3 in Hc as ->.
    exists stem, a, b. split; [reflexivity|].
    split; [now apply lower_char_m | now apply lower_char_p].
  - intros (stem & a & b & -> & Ha & Hb).
    exists (lower stem). rewrite lower_app. f_equal.
    destruct Ha as [-> | ->], Hb as [-> | ->]; reflexivity.
Qed.

(** X1. The result does not depend on the order in which [os.listdir]
    returns the entries: two listings with the same entries give the same
    list. *)
Theorem list_mp3_files_order_independent (all_items all_items' : list string) :
  all_items ≡ₚ all_items' →
  list_mp3_files all_items = list_mp3_files all_items'.
Proof.
  intros Hperm. unfold list_mp3_files. apply sorted_unique.
  - apply (Sorted_merge_sort String.le).
  - unfold sorted. rewrite merge_sort_Permutation. now rewrite Hperm.
Qed.

Lemma list_mp3_files_order_independent_witness :
  list_mp3_files ["b.mp3"; "a.MP3"; "c.txt"]%string
  = list_mp3_files ["c.txt"; "a.MP3"; "b.mp3"]%string.
Proof.
  apply list_mp3_files_order_independent.
  apply (bool_decide_unpack _). vm_compute. exact I.
Defined.

Lemma list_mp3_files_nil (all_items : list string) :
  list_mp3_files all_items = [] ↔ ∀ f, f ∈ all_items → is_mp3 f = false.
Proof.
  split.
  - intros Hnil f Hf. destruct (is_mp3 f) eqn:E; [|reflexivity].
    assert (Hin : f ∈ list_mp3_files all_items)
      by (rewrite list_mp3_files_perm, list_elem_of_filter; auto).
    rewrite Hnil in Hin. now apply elem_of_nil in Hin.
  - intros Hall. destruct (list_mp3_files all_items) as [|f l] eqn:E; [reflexivity|].
    assert (Hin : f ∈ list_mp3_files all_items) by (rewrite E; left).
    rewrite list_mp3_files_perm, list_elem_of_filter in Hin.
    destruct Hin as [Hf Hin]. rewrite (Hall f Hin) in Hf. discriminate.
Qed.

(** ** The checks before the session *)

Lemma session_starts decode export inp files :
  ∃ tr, (session decode export inp files).1 = SetRaw :: Draw (initial files) :: tr.
Proof.
  destruct (session_cases decode export inp files)
    as (draws & st & _ & _ & _ & [-> | [(fin & s & -> & _) | ->]]);
    cbn [fst]; eexists; reflexivity.
Qed.

(** X3. What the script does before the interactive loop.  A command line
    that does not give the two paths ends it in [argparse] (help and status
    0, or a usage error and status 2).  Otherwise it ends with exit status 1
    before touching the terminal, having printed one message, when the
    folder is missing, is not a directory, or holds no entry that passes the
    filter (in that order of precedence); it ends with the exception of
    [os.listdir] when the folder cannot be listed, and with that of
    [termios.tcgetattr] when standard input is not a terminal, having
    printed nothing.  When none of this happens, and only then, it puts the
    terminal in raw mode, and draws the sorted list with the focus on its
    first entry. *)
Theorem main_starts_iff_files (w : world) :
  (argv w = HelpFlag → main w = ([Print Help], Raising (SystemExit 0)))
  ∧ (argv w = BadArguments → main w = ([Print Usage], Raising (SystemExit 2)))
  ∧ (argv w = TwoPaths →
     (path_exists w = false → main w = ([Print NotFound], Raising (SystemExit 1)))
     ∧ (path_exists w = true → path_isdir w = false →
        main w = ([Print NotADirectory], Raising (SystemExit 1)))
     ∧ (path_exists w = true → path_isdir w = true → listable w = false →
        main w = ([], Raising OSError))
     ∧ (path_exists w = true → path_isdir w = true → listable w = true →
        (∀ f, f ∈ listdir w → is_mp3 f = false) →
        main w = ([Print NoFilesFound], Raising (SystemExit 1)))
     ∧ (path_exists w = true → path_isdir w = true → listable w = true →
        (∃ f, f ∈ listdir w ∧ is_mp3 f = true) → stdin_isatty w = false →
        main w = ([], Raising TermiosError))
     ∧ (path_exists w = true → path_isdir w = true → listable w = true →
        (∃ f, f ∈ listdir w ∧ is_mp3 f = true) → stdin_isatty w = true →
        ∃ tr, (main w).1
              = SetRaw :: Draw (initial (list_mp3_files (listdir w))) :: tr))
  ∧ (SetRaw ∈ (main w).1
     ↔ argv w = TwoPaths ∧ path_exists w = true ∧ path_isdir w = true
       ∧ listable w = true ∧ (∃ f, f ∈ listdir w ∧ is_mp3 f = true)
       ∧ stdin_isatty w = true).
Proof.
  assert (Hsome : (∃ f, f ∈ listdir w ∧ is_mp3 f = true)
                  ↔ list_mp3_files (listdir w) ≠ []).
  { rewrite list_mp3_files_nil. split.
    - intros (f & Hin & Hf) Hall. rewrite (Hall f Hin) in Hf. discriminate.
    - intros Hne. destruct (decide (Exists (λ f, is_mp3 f = true) (listdir w)))
        as [Hex|Hnex].
      + apply Exists_exists in Hex as (f & Hin & Hf). eauto.
      + exfalso. apply Hne. intros f Hin. destruct (is_mp3 f) eqn:E; [|reflexivity].
        exfalso. apply Hnex, Exists_exists. eauto. }
  assert (Hone : ∀ m, SetRaw ∈ [Print m] → False)
    by (intros m Hin; apply list_elem_of_singleton in Hin; discriminate).
  assert (Hnil : SetRaw ∈ @nil event → False) by (intros Hin; now apply elem_of_nil in Hin).
  unfold main.
  destruct (argv w).
  2,3: split_and!; try (intros; first [discriminate | reflexivity]);
       (split; [intros Hin; now apply Hone in Hin | intros (? & _); discriminate]).
  split; [discriminate|]. split; [discriminate|].
  destruct (path_exists w); cbn [negb].
  2:{ split; [intros _; split_and!; intros; first [discriminate | reflexivity]|].
      split; [intros Hin; now apply Hone in Hin | intros (_ & ? & _); discriminate]. }
  destruct (path_isdir w); cbn [negb].
  2:{ split; [intros _; split_and!; intros; first [discriminate | reflexivity]|].
      split; [intros Hin; now apply Hone in Hin | intros (_ & _ & ? & _); discriminate]. }
  destruct (listable w); cbn [negb].
  2:{ split; [intros _; split_and!; intros; first [discriminate | reflexivity]|].
      split; [intros Hin; now apply Hnil in Hin
             | intros (_ & _ & _ & ? & _); discriminate]. }
  destruct (list_mp3_files (listdir w)) as [|f0 l] eqn:Hl.
  { split.
    - intros _. split_and!; try (intros; first [discriminate | reflexivity]);
        intros _ _ _ Hex; apply Hsome in Hex; done.
    - cbn [fst]. split; [intros Hin; now apply Hone in Hin|].
      intros (_ & _ & _ & _ & Hex & _). apply Hsome in Hex. done. }
  assert (Hex : ∃ f, f ∈ listdir w ∧ is_mp3 f = true) by (apply Hsome; done).
  destruct (stdin_isatty w).
  - destruct (session_starts (decoder w) (exporter w) (stdin w) (f0 :: l)) as [tr Htr].
    split.
    + intros _. split_and!; try (intros; first [discriminate | reflexivity]).
      * intros _ _ _ Hall. apply list_mp3_files_nil in Hall. congruence.
      * intros _ _ _ _ _. eauto.
    + rewrite Htr. split; [intros _; split_and!; done | intros _; left].
  - split.
    + intros _. split_and!; try (intros; first [discriminate | reflexivity]).
      intros _ _ _ Hall. apply list_mp3_files_nil in Hall. congruence.
    + cbn [fst]. split; [intros Hin; now apply Hnil in Hin|].
      intros (_ & _ & _ & _ & _ & ?). discriminate.
Qed.

(** ** The list editor: what the moves do *)

Lemma len_app {A} (l1 l2 : list A) : len (l1 ++ l2) = len l1 + len l2.
Proof. unfold len. rewrite length_app. lia. Qed.

Lemma len_cons {A} (x : A) (l : list A) : len (x :: l) = len l + 1.
Proof. unfold len. simpl. lia. Qed.

Lemma len_nonneg {A} (l : list A) : 0 ≤ len l.
Proof. unfold len. lia. Qed.

(** Swapping two neighbours, written both ways round as the arrow keys do. *)
Lemma swap_items_adjacent {A} (pre post : list A) (x y : A) :
  swap_items (pre ++ x :: y :: post) (len pre) (len pre + 1)
    = Some (pre ++ y :: x :: post)
  ∧ swap_items (pre ++ x :: y :: post) (len pre + 1) (len pre + 1 - 1)
    = Some (pre ++ y :: x :: post).
Proof.
  assert (Hlen : len (pre ++ x :: y :: post) = len pre + len post + 2)
    by (rewrite len_app, !len_cons; lia).
  pose proof (len_nonneg pre) as Hpre. pose proof (len_nonneg post) as Hpost.
  assert (H0 : 0 ≤ len pre < len (pre ++ x :: y :: post)) by lia.
  assert (H1 : 0 ≤ len pre + 1 < len (pre ++ x :: y :: post)) by lia.
  assert (Hn0 : Z.to_nat (len pre) = length pre) by (unfold len; lia).
  assert (Hn1 : Z.to_nat (len pre + 1) = S (length pre)) by (unfold len; lia).
  assert (Hl0 : (pre ++ x :: y :: post) !! length pre = Some x)
    by (now apply list_lookup_middle).
  assert (Hl1 : (pre ++ x :: y :: post) !! S (length pre) = Some y).
  { rewrite lookup_app_r by lia.
    replace (S (length pre) - length pre)%nat with 1%nat by lia. reflexivity. }
  replace (len pre + 1 - 1) with (len pre) by lia.
  split; unfold swap_items, getitem, setitem.
  - rewrite (py_index_nonneg _ _ H1), (py_index_nonneg _ _ H0), Hn0, Hn1.
    cbn [mbind option_bind]. rewrite Hl1, Hl0. cbn [mbind option_bind].
    rewrite (py_index_length (<[length pre:=y]> (pre ++ x :: y :: post))
               (pre ++ x :: y :: post)) by apply length_insert.
    rewrite (py_index_nonneg _ _ H1), Hn1. cbn [mbind option_bind]. f_equal.
    rewrite !insert_app_r_alt by lia.
    replace (length pre - length pre)%nat with 0%nat by lia.
    replace (S (length pre) - length pre)%nat with 1%nat by lia. reflexivity.
  - rewrite (py_index_nonneg _ _ H1), (py_index_nonneg _ _ H0), Hn0, Hn1.
    cbn [mbind option_bind]. rewrite Hl1, Hl0. cbn [mbind option_bind].
    rewrite (py_index_length (<[S (length pre):=x]> (pre ++ x :: y :: post))
               (pre ++ x :: y :: post)) by apply length_insert.
    rewrite (py_index_nonneg _ _ H0), Hn0. cbn [mbind option_bind]. f_equal.
    rewrite !insert_app_r_alt by lia.
    replace (length pre - length pre)%nat with 0%nat by lia.
    replace (S (length pre) - length pre)%nat with 1%nat by lia. reflexivity.
Qed.

(** Down arrow on a picked item that has a successor. *)
Lemma arrow_down_picked (pre post : list string) (x y : string) (f : Z) :
  arrow_down (Editor (pre ++ x :: y :: post) f (Some (len pre)))
  = Some (Editor (pre ++ y :: x :: post) (len pre + 1) (Some (len pre + 1))).
Proof.
  unfold arrow_down. cbn [selected_index mp3_files].
  pose proof (len_nonneg post).
  assert (Hlt : (len pre <? len (pre ++ x :: y :: post) - 1) = true)
    by (apply Z.ltb_lt; rewrite len_app, !len_cons; lia).
  rewrite Hlt. destruct (swap_items_adjacent pre post x y) as [-> _]. reflexivity.
Qed.

(** Up arrow on a picked item that has a predecessor. *)
Lemma arrow_up_picked (pre post : list string) (x y : string) (f : Z) :
  arrow_up (Editor (pre ++ x :: y :: post) f (Some (len pre + 1)))
  = Some (Editor (pre ++ y :: x :: post) (len pre) (Some (len pre))).
Proof.
  unfold arrow_up. cbn [selected_index mp3_files].
  pose proof (len_nonneg pre).
  assert (Hgt : (len pre + 1 >? 0) = true) by (apply Z.gtb_lt; lia).
  rewrite Hgt. destruct (swap_items_adjacent pre post x y) as [_ ->].
  cbn [mbind option_bind]. do 2 f_equal; [lia | f_equal; lia].
Qed.

Lemma run_commands_app_nonterminal (cs1 cs2 : list command) (st st1 : editor) :
  Forall (λ c, terminal c = false) cs1 →
  run_commands cs1 st = Some st1 →
  run_commands (cs1 ++ cs2) st = run_commands cs2 st1.
Proof.
  intros Hnt. revert st. induction Hnt as [|c cs1 Hc _ IH]; intros st Hrun; simpl in *.
  - now simplify_eq.
  - rewrite Hc in *. destruct (apply_command c st) as [st'|]; [|discriminate].
    simpl in *. now apply IH.
Qed.

Lemma drag_down_steps (mid : list string) :
  ∀ (pre post : list string) (x : string),
    run_commands (replicate (length mid) MoveDown)
      (Editor (pre ++ x :: mid ++ post) (len pre) (Some (len pre)))
    = Some (Editor (pre ++ mid ++ x :: post)
              (len pre + len mid) (Some (len pre + len mid))).
Proof.
  induction mid as [|y mid IH]; intros pre post x.
  - simpl. do 2 f_equal; [unfold len; simpl; lia | f_equal; unfold len; simpl; lia].
  - cbn [length replicate run_commands terminal apply_command app].
    rewrite arrow_down_picked. cbn [mbind option_bind].
    replace (len pre + 1) with (len (pre ++ [y])) by (rewrite len_app; reflexivity).
    replace (pre ++ y :: x :: mid ++ post) with ((pre ++ [y]) ++ x :: mid ++ post)
      by (now rewrite <- app_assoc).
    rewrite IH. rewrite <- app_assoc. cbn [app].
    do 2 f_equal; [|f_equal]; rewrite len_app, !len_cons; unfold len; simpl; lia.
Qed.

Lemma drag_up_steps (mid : list string) :
  ∀ (pre post : list string) (x : string),
    run_commands (replicate (length mid) MoveUp)
      (Editor (pre ++ mid ++ x :: post)
         (len pre + len mid) (Some (len pre + len mid)))
    = Some (Editor (pre ++ x :: mid ++ post) (len pre) (Some (len pre))).
Proof.
  induction mid as [|y mid IH] using rev_ind; intros pre post x.
  - simpl. do 2 f_equal; [unfold len; simpl; lia | f_equal; unfold len; simpl; lia].
  - rewrite length_app. cbn [length].
    replace (length mid + 1)%nat with (S (length mid)) by lia.
    cbn [replicate run_commands terminal apply_command].
    replace (pre ++ (mid ++ [y]) ++ x :: post) with ((pre ++ mid) ++ y :: x :: post)
      by (now rewrite <- !app_assoc).
    replace (len pre + len (mid ++ [y])) with (len (pre ++ mid) + 1)
      by (rewrite !len_app; unfold len; simpl; lia).
    rewrite arrow_up_picked. cbn [mbind option_bind].
    rewrite <- app_assoc, len_app.
    replace (pre ++ mid ++ x :: y :: post) with (pre ++ mid ++ x :: ([y] ++ post))
      by reflexivity.
    rewrite IH. now rewrite <- app_assoc.
Qed.

(** X6. Picking up the focused item, pressing Down once for each of the
    items it is to pass, and dropping it moves that item behind them and
    leaves every other item where it was relative to the others; the focus
    ends on the moved item. *)
Theorem drag_down_moves_item (pre mid post : list string) (x : string) :
  run_commands (TogglePick :: replicate (length mid) MoveDown ++ [TogglePick])
    (Editor (pre ++ x :: mid ++ post) (len pre) None)
  = Some (Editor (pre ++ mid ++ x :: post) (len pre + len mid) None).
Proof.
  cbn [run_commands terminal apply_command enter selected_index mp3_files
         focused_index mbind option_bind].
  assert (Hnt : Forall (λ c, terminal c = false) (replicate (length mid) MoveDown))
    by (apply Forall_replicate; reflexivity).
  rewrite (run_commands_app_nonterminal _ _ _ _ Hnt (drag_down_steps mid pre post x)).
  reflexivity.
Qed.

(** X7. The same upwards: picking up the focused item, pressing Up once for
    each of the items it is to pass, and dropping it moves that item in
    front of them, the others keeping their relative order. *)
Theorem drag_up_moves_item (pre mid post : list string) (x : string) :
  run_commands (TogglePick :: replicate (length mid) MoveUp ++ [TogglePick])
    (Editor (pre ++ mid ++ x :: post) (len pre + len mid) None)
  = Some (Editor (pre ++ x :: mid ++ post) (len pre) None).
Proof.
  cbn [run_commands terminal apply_command enter selected_index mp3_files
         focused_index mbind option_bind].
  assert (Hnt : Forall (λ c, terminal c = false) (replicate (length mid) MoveUp))
    by (apply Forall_replicate; reflexivity).
  rewrite (run_commands_app_nonterminal _ _ _ _ Hnt (drag_up_steps mid pre post x)).
  reflexivity.
Qed.

Lemma split_at_pair {A} (l : list A) (p : Z) :
  0 ≤ p → p + 1 < len l →
  ∃ pre x y post, l = pre ++ x :: y :: post ∧ len pre = p.
Proof.
  intros Hp Hlt. unfold len in *.
  pose proof (take_drop (Z.to_nat p) l) as Hsplit.
  assert (Hlen : length (take (Z.to_nat p) l) = Z.to_nat p)
    by (rewrite length_take; lia).
  pose proof (length_drop l (Z.to_nat p)) as Hdrop.
  destruct (drop (Z.to_nat p) l) as [|x [|y post]]; simpl in Hdrop; try lia.
  exists (take (Z.to_nat p) l), x, y, post. split; [now symmetry|]. lia.
Qed.

(** X8. While an item is picked up, Down followed by Up, and Up followed by
    Down, put the list, the focus and the pick back as they were, provided
    the first move is not blocked by the end of the list. *)
Theorem picked_moves_undo_each_other (files : list string) (p : Z) :
  (0 ≤ p < len files - 1 →
   run_commands [MoveDown; MoveUp] (Editor files p (Some p))
   = Some (Editor files p (Some p)))
  ∧ (0 < p < len files →
     run_commands [MoveUp; MoveDown] (Editor files p (Some p))
     = Some (Editor files p (Some p))).
Proof.
  split; intros Hp.
  - destruct (split_at_pair files p) as (pre & x & y & post & -> & <-); [lia | lia |].
    cbn [run_commands terminal apply_command].
    rewrite arrow_down_picked. cbn [mbind option_bind].
    rewrite arrow_up_picked. reflexivity.
  - destruct (split_at_pair files (p - 1)) as (pre & x & y & post & -> & Hpre);
      [lia | lia |].
    replace p with (len pre + 1) by lia.
    cbn [run_commands terminal apply_command].
    rewrite arrow_up_picked. cbn [mbind option_bind].
    rewrite arrow_down_picked. reflexivity.
Qed.

Lemma picked_moves_undo_each_other_witness :
  run_commands [MoveDown; MoveUp] (Editor ["A"; "B"; "C"]%string 1 (Some 1))
  = Some (Editor ["A"; "B"; "C"]%string 1 (Some 1)).
Proof.
  apply (picked_moves_undo_each_other ["A"; "B"; "C"]%string 1).
  unfold len; simpl; lia.
Defined.

(** X9. While nothing is picked up the arrow keys only move the focus, and
    they saturate at the ends of the list: [k] presses of Down from a focus
    [f] lead to [min(len - 1, f + k)], [k] presses of Up to [max(0, f - k)],
    and the list is untouched. *)
Theorem browse_arrows_saturate (files : list string) (f : Z) (k : nat) :
  0 ≤ f ≤ len files - 1 →
  run_commands (replicate k MoveDown) (Editor files f None)
  = Some (Editor files (Z.min (len files - 1) (f + Z.of_nat k)) None)
  ∧ run_commands (replicate k MoveUp) (Editor files f None)
    = Some (Editor files (Z.max 0 (f - Z.of_nat k)) None).
Proof.
  revert f. induction k as [|k IH]; intros f Hf.
  - simpl. split; do 2 f_equal; lia.
  - cbn [replicate run_commands terminal apply_command arrow_down arrow_up
           selected_index mp3_files focused_index mbind option_bind].
    split.
    + destruct (IH (Z.min (len files - 1) (f + 1)) ltac:(lia)) as [-> _].
      do 2 f_equal. lia.
    + destruct (IH (Z.max 0 (f - 1)) ltac:(lia)) as [_ ->].
      do 2 f_equal. lia.
Qed.

Lemma browse_arrows_saturate_witness :
  run_commands (replicate 5 MoveDown) (Editor ["A"; "B"; "C"]%string 1 None)
  = Some (Editor ["A"; "B"; "C"]%string 2 None)
  ∧ run_commands (replicate 5 MoveUp) (Editor ["A"; "B"; "C"]%string 1 None)
    = Some (Editor ["A"; "B"; "C"]%string 0 None).
Proof.
  apply (browse_arrows_saturate ["A"; "B"; "C"]%string 1 5).
  unfold len; simpl; lia.
Defined.

(** ** Renderer *)

Lemma rows_from_app (l1 l2 : list string) :
  ∀ idx f sel,
    rows_from idx (l1 ++ l2) f sel
    = rows_from idx l1 f sel ++ rows_from (idx + len l1) l2 f sel.
Proof.
  induction l1 as [|x l1 IH]; intros idx f sel; simpl.
  - f_equal. unfold len; simpl; lia.
  - rewrite IH. do 3 f_equal. rewrite len_cons. lia.
Qed.

(** Rows away from the focus are plain when the pick, if any, is the focus. *)
Lemma rows_from_plain (l : list string) :
  ∀ idx f sel,
    f < idx ∨ idx + len l ≤ f →
    sel = None ∨ sel = Some f →
    rows_from idx l f sel = plain_row <$> l.
Proof.
  induction l as [|x l IH]; intros idx f sel Hf Hsel; [reflexivity|].
  rewrite len_cons in Hf. pose proof (len_nonneg l).
  simpl. rewrite IH by (auto; lia). f_equal.
  unfold row.
  assert (Hne : (idx =? f) = false) by (apply Z.eqb_neq; lia).
  rewrite Hne. cbn [andb].
  rewrite bool_decide_false; [reflexivity|].
  destruct Hsel as [-> | ->]; [discriminate|]. intros [= ->]. lia.
Qed.

(** X4. In a state the editor can reach on a non-empty list, exactly one
    row of the frame is decorated, the one of the focused file: it reads
    [SELECTED] while an item is picked up and carries the focus marks
    otherwise; every other file is drawn as a plain row, in list order. *)
Theorem rows_of_reachable_state (st : editor) :
  wf st → mp3_files st ≠ [] →
  ∃ pre x post,
    mp3_files st = pre ++ x :: post
    ∧ len pre = focused_index st
    ∧ rows_from 0 (mp3_files st) (focused_index st) (selected_index st)
      = (plain_row <$> pre)
        ++ (match selected_index st with
            | Some _ => selected_row x
            | None => focused_row x
            end)
        :: (plain_row <$> post).
Proof.
  destruct st as [files f sel]. unfold wf. cbn [mp3_files focused_index selected_index].
  intros [[Hf | [-> _]] Hsel] Hne; [|done]. unfold len in Hf.
  pose proof (take_drop (Z.to_nat f) files) as Hsplit.
  assert (Hlen : length (take (Z.to_nat f) files) = Z.to_nat f)
    by (rewrite length_take; lia).
  pose proof (length_drop files (Z.to_nat f)) as Hdrop.
  destruct (drop (Z.to_nat f) files) as [|x post] eqn:Ed; [simpl in Hdrop; lia|].
  set (pre := take (Z.to_nat f) files) in *.
  exists pre, x, post.
  assert (Hpre : len pre = f) by (unfold len; lia).
  split; [now symmetry|]. split; [exact Hpre|].
  rewrite <- Hsplit, rows_from_app. cbn [rows_from].
  rewrite rows_from_plain by (auto; lia).
  pose proof (len_nonneg post).
  rewrite rows_from_plain by (auto; lia).
  do 2 f_equal. unfold row.
  replace (0 + len pre) with f by lia. rewrite Z.eqb_refl. cbn [andb].
  destruct Hsel as [-> | ->].
  - rewrite bool_decide_false by discriminate. reflexivity.
  - rewrite bool_decide_true by reflexivity. reflexivity.
Qed.

Lemma rows_of_reachable_state_witness :
  ∃ pre x post,
    ["B"; "A"; "C"]%string = pre ++ x :: post
    ∧ len pre = 1
    ∧ rows_from 0 ["B"; "A"; "C"]%string 1 (Some 1)
      = (plain_row <$> pre) ++ selected_row x :: (plain_row <$> post).
Proof.
  apply (rows_of_reachable_state (Editor ["B"; "A"; "C"]%string 1 (Some 1))).
  - unfold wf, len; simpl. split; [left; lia | now right].
  - discriminate.
Defined.

(** ** What the loop draws *)

Lemma loop_draws (fuel : nat) :
  ∀ (inp : list rd) (st : editor) (char0 : option (list N)) evs r,
    wf st →
    loop fuel inp st char0 = (evs, r) →
    ∀ st', Draw st' ∈ evs → wf st' ∧ mp3_files st' ≡ₚ mp3_files st.
Proof.
  induction fuel as [|fuel IH]; intros inp st char0 evs r Hwf Hloop st' Hin.
  - destruct inp; simpl in Hloop; simplify_eq; now apply elem_of_nil in Hin.
  - destruct inp as [|x inp0].
    { simpl in Hloop. simplify_eq. now apply elem_of_nil in Hin. }
    set (inp := x :: inp0) in *.
    change (loop (S fuel) inp st char0)
      with (let '(char', evs, fl, inp') := iteration inp st char0 in
            match fl with
            | Next st' =>
                let '(evs', r) := loop fuel inp' st' char' in (evs ++ evs', r)
            | Break => (evs, (char', st, Normal))
            | Raise e => (evs, (char', st, Raising e))
            end) in Hloop.
    destruct (iteration_spec inp st char0) as (char1 & evs1 & fl & Hit & Hcmd).
    rewrite Hit in Hloop.
    destruct (fst (next_command inp)) as [c|e].
    + destruct (apply_command_wf c st Hwf) as (st1 & Hst1 & Hwf1).
      pose proof (apply_command_perm c st st1 Hst1) as Hperm1.
      destruct c; rewrite ?Hst1 in Hcmd.
      1-3,6: destruct Hcmd as [-> ->];
        destruct (loop fuel (next_command inp).2 st1 char1) as [evs2 r2] eqn:Hrec;
        simplify_eq;
        apply elem_of_cons in Hin as [Heq | Hin];
        [ simplify_eq; split; [exact Hwf1 | exact Hperm1]
        | destruct (IH _ _ _ _ _ Hwf1 Hrec st' Hin) as [Hw Hp];
          split; [exact Hw | now rewrite Hp] ].
      * destruct Hcmd as (-> & -> & ->). simplify_eq.
        rewrite !elem_of_cons, elem_of_nil in Hin. intuition discriminate.
      * destruct Hcmd as (-> & -> & ->). simplify_eq. now apply elem_of_nil in Hin.
    + destruct Hcmd as [-> ->]. simplify_eq. now apply elem_of_nil in Hin.
Qed.

Lemma combine_phase_no_draw decode export files st :
  Draw st ∉ (combine_phase decode export files).1.
Proof.
  destruct (combine_phase_cases decode export files) as (evs & tail & s & -> & Hev & H).
  cbn [fst].
  assert (Hn : Draw st ∉ evs).
  { intros Hin. rewrite Forall_forall in Hev. apply Hev in Hin. discriminate. }
  destruct H as [(-> & _) | (c & _ & [(_ & -> & _) | (_ & [[-> _] | [[-> _] | [-> _]]])])];
    rewrite !elem_of_app, !elem_of_cons, ?elem_of_nil; intuition discriminate.
Qed.

(** X5. Every frame drawn during a session shows a permutation of the
    listed files, with the focus on one of them and the pick, if any, on
    the focused one. *)
Theorem every_frame_is_consistent decode export inp files st :
  Draw st ∈ (session decode export inp files).1 →
  mp3_files st ≡ₚ files
  ∧ (files ≠ [] → 0 ≤ focused_index st < len files)
  ∧ (selected_index st = None ∨ selected_index st = Some (focused_index st)).
Proof.
  intros Hin.
  assert (Hgoal : wf st ∧ mp3_files st ≡ₚ files).
  { revert Hin. unfold session, try_block.
    destruct (loop (length inp) inp (initial files) None) as [evs [[char st1] s]] eqn:Hloop.
    pose proof (loop_draws _ _ _ _ _ _ (initial_wf files) Hloop st) as Hdraws.
    assert (Hpre : ∀ rest, (Draw st ∈ rest → wf st ∧ mp3_files st ≡ₚ files) →
                     Draw st ∈ [SetRaw; Draw (initial files)] ++ evs ++ rest →
                     wf st ∧ mp3_files st ≡ₚ files).
    { intros rest Hrest. rewrite !elem_of_app, !elem_of_cons, elem_of_nil.
      intros [[Hd | [Hd | []]] | [Hd | Hd]]; [discriminate | | auto | auto].
      simplify_eq. split; [apply initial_wf | reflexivity]. }
    assert (Hfin : ∀ c s0, Draw st ∉ (finally c s0).1).
    { intros c s0. unfold finally.
      destruct s0; try destruct c as [c|]; try destruct (is_chr c "c"); cbn [fst];
        rewrite ?elem_of_cons, ?elem_of_nil; intuition discriminate. }
    destruct s.
    - destruct (bool_decide (char = Some [ord "c"])).
      + destruct (combine_phase decode export (mp3_files st1)) as [evs' s'] eqn:Hcp.
        pose proof (combine_phase_no_draw decode export (mp3_files st1) st) as Hnd.
        rewrite Hcp in Hnd. cbn [fst] in Hnd.
        pose proof (Hfin char s') as Hf. destruct (finally char s') as [evs2 s2].
        cbn [fst] in *. rewrite <- !app_assoc. apply Hpre.
        rewrite elem_of_app. tauto.
      + pose proof (Hfin char Normal) as Hf. destruct (finally char Normal) as [evs2 s2].
        cbn [fst] in *. rewrite <- !app_assoc. apply Hpre. tauto.
    - pose proof (Hfin char (Raising e)) as Hf.
      destruct (finally char (Raising e)) as [evs2 s2].
      cbn [fst] in *. rewrite <- !app_assoc. apply Hpre. tauto.
    - cbn [finally fst]. rewrite <- !app_assoc. apply Hpre.
      intros H. now apply elem_of_nil in H.
    - cbn [finally fst]. rewrite <- !app_assoc. apply Hpre.
      intros H. now apply elem_of_nil in H. }
  destruct Hgoal as [[Hf Hsel] Hperm].
  split; [exact Hperm|]. split; [|exact Hsel].
  intros Hne. rewrite <- (len_perm _ _ Hperm).
  destruct Hf as [Hf | [Hnil _]]; [exact Hf|].
  rewrite Hnil in Hperm. apply Permutation_nil in Hperm. done.
Qed.

Lemma every_frame_is_consistent_witness :
  ["B"; "A"]%string ≡ₚ ["A"; "B"]%string
  ∧ (["A"; "B"]%string ≠ [] → 0 ≤ 1 < len ["A"; "B"]%string)
  ∧ (Some 1 = None ∨ Some 1 = Some 1).
Proof.
  apply (every_frame_is_consistent all_decode always_exported
           (key_enter ++ key_down ++ key_q) ["A"; "B"]%string
           (Editor ["B"; "A"]%string 1 (Some 1))).
  apply (bool_decide_unpack _). vm_compute. exact I.
Defined.

Lemma string_app_assoc (a b c : string) : (a +:+ b) +:+ c = a +:+ (b +:+ c).
Proof.
  induction a as [|x a IH]; [reflexivity|].
  change (String x ((a +:+ b) +:+ c) = String x (a +:+ (b +:+ c))). now f_equal.
Qed.

Lemma ends_with_cr_2 (a b : string) : ∃ body, a +:+ b +:+ CR = body +:+ CR.
Proof. exists (a +:+ b). now rewrite string_app_assoc. Qed.

Lemma ends_with_cr_3 (a b c : string) : ∃ body, a +:+ b +:+ c +:+ CR = body +:+ CR.
Proof. exists (a +:+ b +:+ c). now rewrite !string_app_assoc. Qed.

Lemma row_ends_with_cr idx file f sel : ∃ body, row idx file f sel = body +:+ CR.
Proof.
  unfold row, selected_row, focused_row, plain_row.
  repeat match goal with |- context [if ?b then _ else _] => destruct b end;
    first [apply ends_with_cr_3 | apply ends_with_cr_2].
Qed.

(** X18. A frame begins with the clear-screen sequence and consists of six
    fixed lines plus one row per file; every line is ended by a carriage
    return before the line feed that [print] adds. *)
Theorem frame_lines_end_with_cr (files : list string) (f : Z) (sel : option Z)
    (input_folder_path output_file_path : string) :
  Forall (λ l, ∃ body, l = body +:+ CR)
    (display_lines files f sel input_folder_path output_file_path)
  ∧ length (display_lines files f sel input_folder_path output_file_path)
    = (length files + 6)%nat
  ∧ display_mp3_files files f sel input_folder_path output_file_path
    = clear_screen
      +:+ foldr (λ l out, l +:+ LF +:+ out) EmptyString
            (display_lines files f sel input_folder_path output_file_path).
Proof.
  assert (Hrows : ∀ l idx, Forall (λ l, ∃ body, l = body +:+ CR) (rows_from idx l f sel)
                           ∧ length (rows_from idx l f sel) = length l).
  { induction l as [|x l IH]; intros idx; simpl; [split; [constructor | reflexivity]|].
    destruct (IH (idx + 1)) as [IH1 IH2].
    split; [constructor; [apply row_ends_with_cr | exact IH1] | now rewrite IH2]. }
  destruct (Hrows files 0) as [Hr Hl].
  unfold display_lines. split; [|split].
  - repeat (apply Forall_cons; split; [apply ends_with_cr_2|]).
    apply Forall_app. split; [exact Hr|].
    repeat (apply Forall_cons; split; [first [apply ends_with_cr_2 | eauto]|]).
    constructor.
  - cbn [app length]. rewrite length_app, Hl. simpl. lia.
  - unfold display_mp3_files, display_lines. f_equal.
    generalize ([ "Input folder: " +:+ input_folder_path +:+ CR;
                  "Output file: " +:+ output_file_path +:+ CR;
                  LF +:+ "MP3 files found:" +:+ CR ]
                ++ rows_from 0 files f sel
                ++ [ LF +:+ "Use up/down arrow keys to navigate, Enter to select/deselect, 'q' to quit"
                        +:+ CR;
                     "When an item is selected, up/down arrows will reorder it in the list" +:+ CR;
                     "Press 'c' to combine files in the current order" +:+ CR ]).
    intros l. induction l as [|x l IH]; [reflexivity|].
    cbn [fmap list_fmap foldr]. fold (fmap (M:=list) py_print l).
    rewrite IH. unfold py_print. apply string_app_assoc.
Qed.

(** ** Combiner: what ends up in the combined audio *)

Section combined_audio.

Context (decode : string → decode_result).

Lemma filter_tracks_app (a b : list piece) :
  filter (λ p, is_track p = true) (a ++ b)
  = filter (λ p, is_track p = true) a ++ filter (λ p, is_track p = true) b.
Proof. apply filter_app. Qed.

Lemma combine_loop_tracks n files :
  ∀ i acc evs r,
    combine_loop decode n i files acc = (evs, inl r) →
    filter (λ p, is_track p = true) r
    = filter (λ p, is_track p = true) acc
      ++ (track_of decode <$> filter (λ f, decodable decode f = true) files).
Proof.
  induction files as [|f files IH]; intros i acc evs r H; simpl in H.
  - simplify_eq. now rewrite app_nil_r.
  - unfold read_mp3_file in H. rewrite filter_cons.
    assert (Hd : decodable decode f = match decode f with Decoded _ => true | _ => false end)
      by reflexivity.
    assert (Hms : decoded_ms decode f = match decode f with Decoded ms => ms | _ => 0%N end)
      by reflexivity.
    destruct (decode f) as [ms| |] eqn:Ef.
    + rewrite decide_True by (now rewrite Hd).
      destruct (i <? n - 1);
        destruct (combine_loop decode n (i + 1) files _) as [evs' r'] eqn:E;
        simplify_eq; apply IH in E; rewrite E, !filter_tracks_app;
        cbn [fmap list_fmap]; unfold track_of at 1;
        rewrite <- !app_assoc; reflexivity.
    + rewrite decide_False by (rewrite Hd; discriminate).
      destruct (combine_loop decode n (i + 1) files _) as [evs' r'] eqn:E.
      simplify_eq. now apply IH in E.
    + discriminate.
Qed.

Lemma last_with_gap (init : list string) :
  flat_map (with_gap decode) init ≠ [] →
  last (flat_map (with_gap decode) init) = Some (Silence 3000).
Proof.
  induction init as [|f init IH] using rev_ind; [done|].
  rewrite flat_map_app. cbn [flat_map]. rewrite app_nil_r.
  assert (Hw : with_gap decode f = []
               ∨ with_gap decode f = [track_of decode f] ++ [Silence 3000])
    by (unfold with_gap; destruct (decodable decode f); auto).
  destruct Hw as [-> | ->].
  - rewrite app_nil_r. exact IH.
  - intros _. rewrite app_assoc. apply last_snoc.
Qed.

(** The loop over a list that ends with [l]: every file before [l] adds its
    track and a gap, or nothing; [l] adds its track, or nothing. *)
Lemma combine_loop_layout n files :
  ∀ i acc evs r init l,
    combine_loop decode n i files acc = (evs, inl r) →
    i + len files = n →
    files = init ++ [l] →
    r = acc ++ flat_map (with_gap decode) init
          ++ (if decodable decode l then [track_of decode l] else []).
Proof.
  induction files as [|f files IH]; intros i acc evs r init l H Hn Hsplit.
  - now destruct init.
  - cbn [combine_loop] in H. unfold read_mp3_file in H.
    rewrite len_cons in Hn. pose proof (len_nonneg files) as Hnn.
    assert (Hd : decodable decode f = match decode f with Decoded _ => true | _ => false end)
      by reflexivity.
    assert (Hms : decoded_ms decode f = match decode f with Decoded ms => ms | _ => 0%N end)
      by reflexivity.
    destruct init as [|f' init].
    + cbn [app] in Hsplit. injection Hsplit as -> ->.
      assert (Hlt : (i <? n - 1) = false)
        by (apply Z.ltb_ge; unfold len in Hn; simpl in Hn; lia).
      rewrite Hlt in H. cbn [flat_map app]. rewrite Hd. unfold track_of. rewrite Hms.
      destruct (decode l) as [ms| |]; cbn [combine_loop] in H; simplify_eq;
        [reflexivity | now rewrite app_nil_r].
    + cbn [app] in Hsplit. injection Hsplit as -> Hfiles.
      assert (Hlt : (i <? n - 1) = true).
      { apply Z.ltb_lt. rewrite Hfiles, len_app in Hn.
        pose proof (len_nonneg init). change (len [l]) with 1 in Hn. lia. }
      rewrite Hlt in H. cbn [flat_map]. unfold with_gap at 1, track_of at 1.
      rewrite Hd, Hms.
      destruct (decode f') as [ms| |];
        [ destruct (combine_loop decode n (i + 1) files _) as [evs' r'] eqn:E
        | destruct (combine_loop decode n (i + 1) files _) as [evs' r'] eqn:E
        | discriminate ];
        simplify_eq;
        rewrite (IH _ _ _ _ _ _ E ltac:(lia) eq_refl);
        unfold generate_silence; rewrite <- ?app_assoc; reflexivity.
Qed.

Lemma combine_loop_all_decode n files :
  (∀ f, f ∈ files → decodable decode f = true) →
  ∀ i acc, i + len files = n →
    ∃ evs, combine_loop decode n i files acc
           = (evs, inl (acc ++ gapped (track_of decode <$> files))).
Proof.
  induction files as [|f files IH]; intros Hall i acc Hn.
  - simpl. rewrite app_nil_r. eauto.
  - cbn [combine_loop]. unfold read_mp3_file.
    pose proof (Hall f ltac:(left)) as Hf.
    assert (Hms : decoded_ms decode f = match decode f with Decoded ms => ms | _ => 0%N end)
      by reflexivity.
    unfold decodable in Hf.
    destruct (decode f) as [ms| |] eqn:Ef; try discriminate.
    assert (Hall' : ∀ g, g ∈ files → decodable decode g = true)
      by (intros g Hg; apply Hall; now right).
    rewrite len_cons in Hn. pose proof (len_nonneg files) as Hnn.
    destruct files as [|g files].
    + assert (Hlt : (i <? n - 1) = false)
        by (apply Z.ltb_ge; unfold len in Hn; simpl in Hn; lia).
      rewrite Hlt. cbn [combine_loop fmap list_fmap gapped]. unfold track_of.
      eexists. rewrite Hms. reflexivity.
    + assert (Hlt : (i <? n - 1) = true)
        by (apply Z.ltb_lt; rewrite len_cons in Hn; pose proof (len_nonneg files); lia).
      rewrite Hlt.
      destruct (IH Hall' (i + 1) ((acc ++ [Track f ms]) ++ generate_silence 3000)
                  ltac:(lia)) as [evs ->].
      eexists. f_equal. f_equal. rewrite <- !app_assoc, <- Hms. reflexivity.
Qed.

End combined_audio.

(** X10. Whatever fails to decode, the tracks of the combined audio are
    exactly the files that decode, in the order of the list, each with the
    length it decoded to: a skipped file neither drops nor reorders others. *)
Theorem tracks_follow_list_order decode files evs combined :
  combine decode files = (evs, inl combined) →
  filter (λ p, is_track p = true) combined
  = (track_of decode <$> filter (λ f, decodable decode f = true) files).
Proof.
  intros H. unfold combine in H. now apply combine_loop_tracks in H.
Qed.

Lemma tracks_follow_list_order_witness :
  filter (λ p, is_track p = true)
    [Track "a.mp3" 1000; Silence 3000; Track "c.mp3" 1000; Silence 3000]
  = (track_of only_b_fails
       <$> filter (λ f, decodable only_b_fails f = true) ["a.mp3"; "c.mp3"; "b.mp3"]%string).
Proof.
  apply (tracks_follow_list_order only_b_fails ["a.mp3"; "c.mp3"; "b.mp3"]%string
           [Print (Processing "a.mp3"); Print (AddedSilence "a.mp3");
            Print (Processing "c.mp3"); Print (AddedSilence "c.mp3");
            Print (Processing "b.mp3"); Print (Warning "b.mp3")]).
  vm_compute. reflexivity.
Defined.

(** X11. Whatever fails to decode, the combined audio is laid out by the
    position of the files in the list: every file but the last adds its
    track followed by a gap of three seconds when it decodes and nothing
    when it is skipped, and the last file adds its track with no gap after
    it, or nothing.  So the audio ends with the track of the last file when
    that decodes, and with a trailing gap when it does not (and anything
    was decoded); it holds as many gaps as tracks in that case, and one
    fewer otherwise. *)
Theorem gaps_follow_last_file decode files evs combined :
  combine decode files = (evs, inl combined) →
  (files = [] → combined = [])
  ∧ (∀ init l, files = init ++ [l] →
       combined = flat_map (with_gap decode) init
                    ++ (if decodable decode l then [track_of decode l] else [])
       ∧ (decodable decode l = true → last combined = Some (track_of decode l))
       ∧ (decodable decode l = false → combined ≠ [] →
          last combined = Some (Silence 3000)))
  ∧ tracks combined = decoded_count decode files
  ∧ match last files with
    | Some f =>
        if decodable decode f then S (gaps 3000 combined) = tracks combined
        else gaps 3000 combined = tracks combined
    | None => gaps 3000 combined = 0%nat ∧ tracks combined = 0%nat
    end.
Proof.
  intros H. split; [|split].
  - intros ->. unfold combine in H. simpl in H. now simplify_eq.
  - intros init l ->.
    assert (Hlay : combined
                   = flat_map (with_gap decode) init
                       ++ (if decodable decode l then [track_of decode l] else [])).
    { unfold combine in H.
      apply (combine_loop_layout decode _ _ _ _ _ _ init l) in H; [exact H | lia | reflexivity]. }
    split; [exact Hlay|]. rewrite Hlay. split.
    + intros ->. apply last_snoc.
    + intros ->. rewrite app_nil_r. apply last_with_gap.
  - apply combine_counts in H as [Ht Hg]. split; [exact Ht|].
    rewrite Ht, Hg. clear Ht Hg.
    induction files as [|f0 files0 _] using rev_ind; [split; reflexivity|].
    rewrite last_snoc, length_app. cbn [length].
    replace (length files0 + 1 - 1)%nat with (length files0) by lia.
    rewrite take_app_length, decoded_count_app, decoded_count_cons.
    change (decoded_count decode []) with 0%nat.
    destruct (decodable decode f0); lia.
Qed.

Lemma gaps_follow_last_file_witness :
  [Track "a.mp3" 1000; Silence 3000; Track "c.mp3" 1000; Silence 3000]
  = flat_map (with_gap only_b_fails) ["a.mp3"; "c.mp3"]%string
      ++ (if decodable only_b_fails "b.mp3" then [track_of only_b_fails "b.mp3"] else [])
  ∧ last [Track "a.mp3" 1000; Silence 3000; Track "c.mp3" 1000; Silence 3000]
    = Some (Silence 3000).
Proof.
  destruct (gaps_follow_last_file only_b_fails ["a.mp3"; "c.mp3"; "b.mp3"]%string
              [Print (Processing "a.mp3"); Print (AddedSilence "a.mp3");
               Print (Processing "c.mp3"); Print (AddedSilence "c.mp3");
               Print (Processing "b.mp3"); Print (Warning "b.mp3")]
              [Track "a.mp3" 1000; Silence 3000; Track "c.mp3" 1000; Silence 3000])
    as (_ & Hlay & _); [vm_compute; reflexivity|].
  destruct (Hlay ["a.mp3"; "c.mp3"]%string "b.mp3"%string eq_refl) as (Heq & _ & Hlast).
  split; [exact Heq|]. apply Hlast; [reflexivity | discriminate].
Defined.

(** X12. When every file decodes, the combined audio is the tracks in list
    order with exactly one gap of three seconds between each two of them,
    and no gap before the first or after the last. *)
Theorem all_decoded_layout decode files :
  (∀ f, f ∈ files → decodable decode f = true) →
  (combine decode files).2 = inl (gapped (track_of decode <$> files)).
Proof.
  intros Hall. unfold combine.
  destruct (combine_loop_all_decode decode (len files) files Hall 0 empty_audio)
    as [evs ->]; [lia | reflexivity].
Qed.

Lemma all_decoded_layout_witness :
  (combine all_decode ["B"; "C"; "A"]%string).2
  = inl [Track "B" 1000; Silence 3000; Track "C" 1000; Silence 3000; Track "A" 1000].
Proof.
  apply (all_decoded_layout all_decode ["B"; "C"; "A"]%string).
  intros f _. reflexivity.
Defined.

(** ** The session: how it ends *)

(** The value of [char] after one pass of the loop: it is only left as it
    was when the first read raises, and it is ['c'] only when the pass
    breaks. *)
Lemma iteration_char (inp : list rd) (st : editor) (char0 : option (list N)) :
  ∀ char evs fl inp',
    iteration inp st char0 = (char, evs, fl, inp') →
    (char = char0 ∧ ∃ r rest e, inp = r :: rest ∧ raised r = Some e ∧ fl = Raise e)
    ∨ (∃ c, char = Some c
        ∧ (c = [ord "c"] → fl = Break)
        ∧ (∀ e, fl = Raise e →
             e = KeyboardInterrupt ∨ e = UnicodeDecodeError ∨ e = IndexError)).
Proof.
  intros char evs fl inp'. unfold iteration.
  destruct inp as [|[c| |] [|[c2| |] [|[c3| |] inp3]]]; cbn [read1];
    split_ifs; try discriminate;
    unfold redraw;
    try destruct (arrow_up st); try destruct (arrow_down st);
    intros H; simplify_eq.
  all: try (left; split; [reflexivity|]; do 3 eexists;
            split; [reflexivity|]; split; reflexivity).
  all: right; eexists; split; [reflexivity|]; split;
        [ intros Hc | intros err Herr; simplify_eq; auto ].
  all: try reflexivity.
  all: exfalso.
  all: try discriminate Hc.
  all: try (injection Hc as ->).
  all: repeat match goal with
         | H : is_chr _ _ = _ |- _ => vm_compute in H; first [discriminate H | clear H]
         | H : _ || _ = _ |- _ => vm_compute in H; first [discriminate H | clear H]
         end.
Qed.

Lemma next_command_raises (inp : list rd) (e : exn) :
  fst (next_command inp) = inr e → e = KeyboardInterrupt ∨ e = UnicodeDecodeError.
Proof.
  unfold next_command.
  destruct inp as [|[c| |] [|[c2| |] [|[c3| |] inp3]]]; cbn [read1];
    split_ifs; cbn [fst]; intros H; simplify_eq; auto.
Qed.

(** When the loop ends with an exception it is that of a read, and [char]
    is unbound only if that was the very first read. *)
Lemma loop_raising (fuel : nat) :
  ∀ (inp : list rd) (st : editor) (char0 : option (list N)) evs char st' e,
    wf st → char0 ≠ Some [ord "c"] →
    loop fuel inp st char0 = (evs, (char, st', Raising e)) →
    (e = KeyboardInterrupt ∨ e = UnicodeDecodeError)
    ∧ char ≠ Some [ord "c"]
    ∧ (char = None → char0 = None ∧ ∃ r rest, inp = r :: rest ∧ raised r = Some e).
Proof.
  induction fuel as [|fuel IH]; intros inp st char0 evs char st' e Hwf Hc0 Hloop.
  - destruct inp; simpl in Hloop; simplify_eq.
  - destruct inp as [|x inp0]; [simpl in Hloop; simplify_eq|].
    set (inp := x :: inp0) in *.
    change (loop (S fuel) inp st char0)
      with (let '(char', evs, fl, inp') := iteration inp st char0 in
            match fl with
            | Next st' =>
                let '(evs', r) := loop fuel inp' st' char' in (evs ++ evs', r)
            | Break => (evs, (char', st, Normal))
            | Raise e => (evs, (char', st, Raising e))
            end) in Hloop.
    destruct (iteration_spec inp st char0) as (char1 & evs1 & fl & Hit & Hcmd).
    pose proof (iteration_char inp st char0 _ _ _ _ Hit) as Hchar.
    rewrite Hit in Hloop.
    destruct fl as [st1| |err].
    + destruct (loop fuel (next_command inp).2 st1 char1) as [evs2 [[char2 st2] s2]] eqn:Hrec.
      simplify_eq.
      assert (Hwf1 : wf st1).
      { destruct (fst (next_command inp)) as [c|e0].
        - destruct (apply_command_wf c st Hwf) as (st1' & Hst1 & Hwf1).
          destruct c; rewrite ?Hst1 in Hcmd; destruct Hcmd as [? ?]; now simplify_eq.
        - destruct Hcmd as [? _]. discriminate. }
      destruct Hchar as [(_ & r & rest & e0 & _ & _ & ?) | (c & -> & Hbreak & _)];
        [discriminate|].
      assert (Hc : Some c ≠ Some [ord "c"])
        by (intros [= ->]; specialize (Hbreak eq_refl); discriminate).
      destruct (IH _ _ _ _ _ _ _ Hwf1 Hc Hrec) as (He & Hne & Hnone).
      split; [exact He|]. split; [exact Hne|].
      intros Hn. destruct (Hnone Hn) as [? _]. discriminate.
    + simplify_eq.
    + assert (He : err = KeyboardInterrupt ∨ err = UnicodeDecodeError).
      { destruct (fst (next_command inp)) as [c1|e0] eqn:Hfst.
        - destruct (apply_command_wf c1 st Hwf) as (st1' & Hst1 & _).
          destruct c1; rewrite ?Hst1 in Hcmd; destruct Hcmd as [? ?]; discriminate.
        - destruct Hcmd as [[= ->] _]. now apply next_command_raises in Hfst. }
      injection Hloop as <- <- <- <-. split; [exact He|].
      destruct Hchar as [(-> & r & rest & e0 & Hinp & Hr & [= <-]) | (c & -> & Hbreak & _)].
      * split; [exact Hc0|]. intros ->. split; [reflexivity|]. eauto.
      * split.
        -- intros [= ->]. specialize (Hbreak eq_refl). discriminate.
        -- discriminate.
Qed.


Lemma loop_step (fuel : nat) (inp : list rd) (st : editor) (char0 : option (list N)) :
  inp ≠ [] →
  loop (S fuel) inp st char0
  = (let '(char', evs, fl, inp') := iteration inp st char0 in
     match fl with
     | Next st' => let '(evs', r) := loop fuel inp' st' char' in (evs ++ evs', r)
     | Break => (evs, (char', st, Normal))
     | Raise e => (evs, (char', st, Raising e))
     end).
Proof. destruct inp; [done | reflexivity]. Qed.


(** The five ways a session goes: combine, quit, a read that raises after
    some key was read, a read that raises before any was, and the end of the
    input. *)
Lemma session_outcomes decode export inp files :
  ∃ draws st,
    Forall (λ e, is_draw e = true) draws ∧ mp3_files st ≡ₚ files
    ∧ (session decode export inp files
         = ([SetRaw; Draw (initial files)] ++ draws
              ++ [Restore; Clear; Print Combining]
              ++ (combine_phase decode export (mp3_files st)).1 ++ [Restore],
            (combine_phase decode export (mp3_files st)).2)
       ∨ session decode export inp files
           = ([SetRaw; Draw (initial files)] ++ draws
                ++ [Restore; Clear; Print Exiting], Normal)
       ∨ (∃ e, session decode export inp files
                 = ([SetRaw; Draw (initial files)] ++ draws
                      ++ [Restore; Clear; Print Exiting], Raising e)
               ∧ (e = KeyboardInterrupt ∨ e = UnicodeDecodeError))
       ∨ (session decode export inp files
            = ([SetRaw; Draw (initial files)] ++ [Restore], Raising NameError)
          ∧ ∃ r rest e, inp = r :: rest ∧ raised r = Some e)
       ∨ session decode export inp files
           = ([SetRaw; Draw (initial files)] ++ draws, Diverges)).
Proof.
  unfold session, try_block.
  destruct (loop (length inp) inp (initial files) None) as [evs [[char st] s]] eqn:Hloop.
  destruct (loop_spec _ _ _ _ _ _ _ _ (initial_wf files) (le_n _) Hloop)
    as (_ & Hperm & Hfuel & _ & draws & Hdraws & Hev).
  exists draws, st. split; [exact Hdraws|]. split; [exact Hperm|].
  destruct Hev as [(-> & -> & ->) | [Hq ->]].
  - left. rewrite bool_decide_true by done.
    destruct (combine_phase decode export (mp3_files st)) as [evs2 s2] eqn:Hcp.
    pose proof (combine_phase_status decode export (mp3_files st)) as Hs2.
    rewrite Hcp in Hs2. simpl in Hs2.
    destruct Hs2 as [-> | [e ->]]; unfold finally;
      change (is_chr [ord "c"] "c") with true; cbn [fst snd];
      rewrite <- !app_assoc; reflexivity.
  - destruct s as [|e| |].
    + right; left. rewrite (Hq eq_refl).
      rewrite bool_decide_false by discriminate. reflexivity.
    + assert (Hc0 : (None : option (list N)) ≠ Some [ord "c"]) by discriminate.
      destruct (loop_raising _ _ _ _ _ _ _ _ (initial_wf files) Hc0 Hloop)
        as (He & Hne & Hnone).
      destruct char as [c|].
      * right; right; left. exists e. split; [|exact He]. unfold finally.
        assert (Hcc : is_chr c "c" = false).
        { destruct (is_chr c "c") eqn:E; [|reflexivity].
          apply is_chr_spec in E. subst c. now destruct Hne. }
        rewrite Hcc. rewrite <- app_assoc. reflexivity.
      * right; right; right; left.
        destruct (Hnone eq_refl) as (_ & r & rest & Hinp & Hr). split; [|eauto].
        rewrite Hinp in Hloop.
        destruct r; [discriminate Hr | |]; simpl in Hloop; simplify_eq; reflexivity.
    + right; right; right; right. simpl. now rewrite app_nil_r.
    + done.
Qed.

Lemma draws_only (draws : list event) (e : event) :
  Forall (λ e, is_draw e = true) draws → is_draw e = false → e ∉ draws.
Proof.
  intros Hall He Hin. rewrite Forall_forall in Hall. apply Hall in Hin. congruence.
Qed.

Lemma progress_only (evs : list event) (e : event) :
  Forall (λ e, is_progress e = true) evs → is_progress e = false → e ∉ evs.
Proof.
  intros Hall He Hin. rewrite Forall_forall in Hall. apply Hall in Hin. congruence.
Qed.


(** X14. A session calls [export] at most once, never before the user has
    pressed ['c'], and only with audio of positive length that is the
    combination, in some order, of the listed files. *)
Theorem export_discipline decode export inp files :
  (exports (session decode export inp files).1 ≤ 1)%nat
  ∧ ∀ a, Export a ∈ (session decode export inp files).1 →
         0 < audio_len a
         ∧ Print Combining ∈ (session decode export inp files).1
         ∧ ∃ order evs, order ≡ₚ files ∧ combine decode order = (evs, inl a).
Proof.
  destruct (session_outcomes decode export inp files)
    as (draws & st & Hdraws & Hperm & [H | [H | [(e & H & _) | [[H _] | H]]]]);
    rewrite H; cbn [fst].
  - destruct (combine_phase_cases decode export (mp3_files st))
      as (evs & tail & s & Hcp & Hev & Hcases).
    rewrite Hcp. cbn [fst].
    rewrite !exports_app, (draws_exports draws Hdraws), (progress_exports evs Hev).
    assert (Hd : ∀ a, Export a ∉ draws) by (intros a; now apply draws_only).
    assert (Hp : ∀ a, Export a ∉ evs) by (intros a; now apply progress_only).
    destruct Hcases as [(-> & _) | (c & Hc & [(_ & -> & _) | (Hpos & [[-> _] | [[-> _] | [-> _]]])])].
    + split; [vm_compute; lia|]. intros a.
      rewrite !elem_of_app, !elem_of_cons, ?elem_of_nil.
      specialize (Hd a). specialize (Hp a). intuition discriminate.
    + split; [vm_compute; lia|]. intros a.
      rewrite !elem_of_app, !elem_of_cons, ?elem_of_nil.
      specialize (Hd a). specialize (Hp a). intuition discriminate.
    + split; [vm_compute; lia|]. intros a Hin.
      assert (a = c) as ->.
      { revert Hin. rewrite !elem_of_app, !elem_of_cons, ?elem_of_nil.
        specialize (Hd a). specialize (Hp a). intuition (try discriminate); congruence. }
      split; [exact Hpos|]. split; [|eauto].
      rewrite !elem_of_app, !elem_of_cons. tauto.
    + split; [vm_compute; lia|]. intros a Hin.
      assert (a = c) as ->.
      { revert Hin. rewrite !elem_of_app, !elem_of_cons, ?elem_of_nil.
        specialize (Hd a). specialize (Hp a). intuition (try discriminate); congruence. }
      split; [exact Hpos|]. split; [|eauto].
      rewrite !elem_of_app, !elem_of_cons. tauto.
    + split; [vm_compute; lia|]. intros a Hin.
      assert (a = c) as ->.
      { revert Hin. rewrite !elem_of_app, !elem_of_cons, ?elem_of_nil.
        specialize (Hd a). specialize (Hp a). intuition (try discriminate); congruence. }
      split; [exact Hpos|]. split; [|eauto].
      rewrite !elem_of_app, !elem_of_cons. tauto.
  - rewrite !exports_app, (draws_exports draws Hdraws). split; [vm_compute; lia|].
    intros a. rewrite !elem_of_app, !elem_of_cons, ?elem_of_nil.
    pose proof (draws_only draws (Export a) Hdraws eq_refl). intuition discriminate.
  - rewrite !exports_app, (draws_exports draws Hdraws). split; [vm_compute; lia|].
    intros a. rewrite !elem_of_app, !elem_of_cons, ?elem_of_nil.
    pose proof (draws_only draws (Export a) Hdraws eq_refl). intuition discriminate.
  - split; [vm_compute; lia|].
    intros a. rewrite !elem_of_app, !elem_of_cons, ?elem_of_nil. intuition discriminate.
  - rewrite !exports_app, (draws_exports draws Hdraws). split; [vm_compute; lia|].
    intros a. rewrite !elem_of_app, !elem_of_cons, ?elem_of_nil.
    pose proof (draws_only draws (Export a) Hdraws eq_refl). intuition discriminate.
Qed.



(** X17. A read that raises before the first key has been read (an
    interrupt, or bytes that do not decode) ends the script with
    [NameError] instead of the exception of the read, because [finally]
    tests [char] before it was ever assigned; the terminal has been
    restored by then and no exit message is printed.  Once a key has been
    read, [finally] finds [char] bound and the script ends the way its
    [try] block did. *)
Theorem unbound_char_masks_first_interrupt decode export files :
  (∀ r rest e, raised r = Some e →
     (try_block decode export (r :: rest) files).2.2 = Raising e
     ∧ session decode export (r :: rest) files
       = ([SetRaw; Draw (initial files); Restore], Raising NameError))
  ∧ (∀ k rest,
       (session decode export (Key k :: rest) files).2
       = (try_block decode export (Key k :: rest) files).2.2).
Proof.
  split.
  - intros r rest e Hr. destruct r; [discriminate Hr | |];
      injection Hr as <-; split; reflexivity.
  - intros k rest. unfold session, try_block.
    destruct (loop (length (Key k :: rest)) (Key k :: rest) (initial files) None)
      as [evs [[char st] s]] eqn:Hloop.
    destruct (loop_spec _ _ _ _ _ _ _ _ (initial_wf files) (le_n _) Hloop)
      as (_ & _ & _ & _ & draws & _ & Hev).
    assert (Hbound : s = Normal ∨ (∃ e, s = Raising e) → ∃ c, char = Some c).
    { intros [-> | [e ->]].
      - destruct Hev as [(_ & -> & _) | [Hq _]]; [eauto | rewrite (Hq eq_refl); eauto].
      - assert (Hc0 : (None : option (list N)) ≠ Some [ord "c"]) by discriminate.
        destruct (loop_raising _ _ _ _ _ _ _ _ (initial_wf files) Hc0 Hloop)
          as (_ & _ & Hnone).
        destruct char as [c|]; [eauto|].
        destruct (Hnone eq_refl) as (_ & r & rest' & [= <- _] & Hr). discriminate Hr. }
    destruct s as [|e| |].
    + destruct Hbound as [c ->]; [now left|].
      destruct (bool_decide (Some c = Some [ord "c"])).
      * destruct (combine_phase decode export (mp3_files st)) as [evs2 s2] eqn:Hcp.
        pose proof (combine_phase_status decode export (mp3_files st)) as Hs2.
        rewrite Hcp in Hs2. cbn [snd] in Hs2.
        destruct Hs2 as [-> | [e ->]]; unfold finally; destruct (is_chr c "c"); reflexivity.
      * unfold finally. destruct (is_chr c "c"); reflexivity.
    + destruct Hbound as [c ->]; [right; eauto|].
      unfold finally. destruct (is_chr c "c"); reflexivity.
    + reflexivity.
    + reflexivity.
Qed.

(** X15. In a session the exit status and the final messages agree: the
    success message is printed exactly when the user pressed ['c'] and the
    script ends with status 0, and the script ends through [sys.exit(1)]
    exactly when it printed the no-valid-files error or the write error. *)
Theorem exit_status_matches_messages decode export inp files :
  (Print Saved ∈ (session decode export inp files).1
   ↔ exit_code (session decode export inp files).2 = Some 0
     ∧ Print Combining ∈ (session decode export inp files).1)
  ∧ (exit_code (session decode export inp files).2 = Some 1
     ↔ Print NoValidFiles ∈ (session decode export inp files).1
       ∨ Print WriteError ∈ (session decode export inp files).1).
Proof.
  destruct (session_outcomes decode export inp files)
    as (draws & st & Hdraws & Hperm
        & [H | [H | [(e & H & [-> | ->]) | [[H _] | H]]]]); rewrite H;
    cbn [fst snd exit_code];
    pose proof (draws_only draws (Print Saved) Hdraws eq_refl) as Hd1;
    pose proof (draws_only draws (Print NoValidFiles) Hdraws eq_refl) as Hd2;
    pose proof (draws_only draws (Print WriteError) Hdraws eq_refl) as Hd3;
    pose proof (draws_only draws (Print Combining) Hdraws eq_refl) as Hd4.
  1:{ destruct (combine_phase_cases decode export (mp3_files st))
        as (evs & tail & s & -> & Hev & Hc).
      cbn [fst snd].
      pose proof (progress_only evs (Print Saved) Hev eq_refl) as Hp1.
      pose proof (progress_only evs (Print NoValidFiles) Hev eq_refl) as Hp2.
      pose proof (progress_only evs (Print WriteError) Hev eq_refl) as Hp3.
      destruct Hc as [(-> & -> & _) | (c & _ & [(_ & -> & ->) | (_ & [[-> ->] | [[-> ->] | [-> ->]]])])];
        cbn [exit_code];
        rewrite !elem_of_app, !elem_of_cons, ?elem_of_nil;
        split; split; intros; intuition (try discriminate). }
  all: rewrite !elem_of_app, !elem_of_cons, ?elem_of_nil;
    split; split; intros; intuition (try discriminate).
Qed.

(** ** Typing commands *)

Lemma next_command_key (c : command) (rest : list rd) :
  next_command (key_of c ++ rest) = (inl c, rest).
Proof. destruct c; reflexivity. Qed.

(** X19. Decoding inverts the keyboard's encoding: for every command, the
    key decoder applied to the characters of its key followed by any
    further input returns that command and leaves exactly the further
    input. *)
Theorem next_command_key_of (c : command) (rest : list rd) :
  next_command (key_of c ++ rest) = (inl c, rest)
  ∧ consumed (key_of c ++ rest) = length (key_of c).
Proof.
  pose proof (next_command_key c rest) as H.
  split; [exact H|]. unfold consumed. rewrite H. cbn [snd].
  rewrite length_app. lia.
Qed.

Lemma key_of_nonempty (c : command) : (1 ≤ length (key_of c))%nat.
Proof. destruct c; simpl; lia. Qed.

Lemma loop_typed (cs : list command) :
  ∀ (stop : command) (rest : list rd) (st st' : editor) (char0 : option (list N))
    (fuel : nat),
    terminal stop = true →
    Forall (λ c, terminal c = false) cs →
    run_commands cs st = Some st' →
    (length cs < fuel)%nat →
    ∃ draws,
      Forall (λ e, is_draw e = true) draws
      ∧ loop fuel (flat_map key_of cs ++ key_of stop ++ rest) st char0
        = (draws ++ (if stop is Combine then [Restore; Clear; Print Combining] else []),
           (Some [ord (if stop is Combine then "c" else "q")], st', Normal)).
Proof.
  induction cs as [|c cs IH]; intros stop rest st st' char0 fuel Hstop Hnt Hrun Hfuel.
  - simpl in Hrun. simplify_eq. exists []. split; [constructor|].
    destruct fuel as [|fuel]; [lia|].
    cbn [flat_map app]. rewrite loop_step by (destruct stop; discriminate).
    destruct (iteration_spec (key_of stop ++ rest) st' char0)
      as (char1 & evs1 & fl & Hit & Hcmd).
    pose proof (next_command_key stop rest) as Hnc.
    rewrite Hit, Hnc in *. cbn [fst snd] in *.
    destruct stop; try discriminate; destruct Hcmd as (-> & -> & ->); reflexivity.
  - apply Forall_cons in Hnt as [Hc Hnt].
    cbn [run_commands] in Hrun. rewrite Hc in Hrun.
    destruct (apply_command c st) as [st1|] eqn:Hst1; [|discriminate].
    cbn [mbind option_bind] in Hrun.
    destruct fuel as [|fuel]; [simpl in Hfuel; lia|].
    cbn [flat_map]. rewrite <- app_assoc.
    rewrite loop_step
      by (pose proof (key_of_nonempty c); destruct (key_of c); [simpl in *; lia | done]).
    destruct (iteration_spec (key_of c ++ flat_map key_of cs ++ key_of stop ++ rest)
                st char0) as (char1 & evs1 & fl & Hit & Hcmd).
    pose proof (next_command_key c (flat_map key_of cs ++ key_of stop ++ rest)) as Hnc.
    rewrite Hit, Hnc in *. cbn [fst snd] in *.
    assert (Hnext : fl = Next st1 ∧ evs1 = [Draw st1])
      by (destruct c; try discriminate; rewrite ?Hst1 in Hcmd; exact Hcmd).
    destruct Hnext as [-> ->].
    destruct (IH stop rest st1 st' char1 fuel Hstop Hnt Hrun ltac:(simpl in Hfuel; lia))
      as (draws & Hdraws & ->).
    exists (Draw st1 :: draws). split; [now constructor | reflexivity].
Qed.

Lemma flat_map_key_of_length (cs : list command) :
  (length cs ≤ length (flat_map key_of cs))%nat.
Proof.
  induction cs as [|c cs IH]; [reflexivity|].
  cbn [flat_map length]. rewrite length_app. pose proof (key_of_nonempty c). lia.
Qed.

(** X20. Typing the keys of a sequence of arrow, Enter and ignored keys and
    then ['c'] combines the files in exactly the order the commands lead to,
    whatever input follows; typing ['q'] instead ends the script with status
    0 without decoding or exporting anything. *)
Theorem typed_commands_reach_the_combiner decode export cs rest files st' :
  Forall (λ c, terminal c = false) cs →
  run_commands cs (initial files) = Some st' →
  (∃ draws,
      Forall (λ e, is_draw e = true) draws
      ∧ session decode export (flat_map key_of cs ++ key_c ++ rest) files
        = ([SetRaw; Draw (initial files)] ++ draws
             ++ [Restore; Clear; Print Combining]
             ++ (combine_phase decode export (mp3_files st')).1 ++ [Restore],
           (combine_phase decode export (mp3_files st')).2))
  ∧ (∃ draws,
        Forall (λ e, is_draw e = true) draws
        ∧ session decode export (flat_map key_of cs ++ key_q ++ rest) files
          = ([SetRaw; Draw (initial files)] ++ draws
               ++ [Restore; Clear; Print Exiting], Normal)).
Proof.
  intros Hnt Hrun. split.
  - assert (Hfuel : (length cs < length (flat_map key_of cs ++ key_c ++ rest))%nat)
      by (rewrite !length_app; pose proof (flat_map_key_of_length cs); simpl; lia).
    destruct (loop_typed cs Combine rest (initial files) st' None _ eq_refl Hnt Hrun Hfuel)
      as (draws & Hdraws & Hloop).
    exists draws. split; [exact Hdraws|].
    unfold session, try_block. change (key_of Combine) with key_c in Hloop.
    rewrite Hloop. rewrite bool_decide_true by reflexivity.
    destruct (combine_phase decode export (mp3_files st')) as [evs2 s2] eqn:Hcp.
    pose proof (combine_phase_status decode export (mp3_files st')) as Hs2.
    rewrite Hcp in Hs2. cbn [snd] in Hs2.
    destruct Hs2 as [-> | [e ->]]; unfold finally;
      change (is_chr [ord "c"] "c") with true; cbn [fst snd];
      rewrite <- !app_assoc; reflexivity.
  - assert (Hfuel : (length cs < length (flat_map key_of cs ++ key_q ++ rest))%nat)
      by (rewrite !length_app; pose proof (flat_map_key_of_length cs); simpl; lia).
    destruct (loop_typed cs Quit rest (initial files) st' None _ eq_refl Hnt Hrun Hfuel)
      as (draws & Hdraws & Hloop).
    exists draws. split; [exact Hdraws|].
    unfold session, try_block. change (key_of Quit) with key_q in Hloop.
    rewrite Hloop. rewrite bool_decide_false by discriminate.
    rewrite app_nil_r. reflexivity.
Qed.

Lemma typed_commands_reach_the_combiner_witness :
  ∃ draws,
    Forall (λ e, is_draw e = true) draws
    ∧ session all_decode always_exported
        (flat_map key_of [TogglePick; MoveDown; MoveDown; TogglePick] ++ key_c ++ [])
        ["A"; "B"; "C"]%string
      = ([SetRaw; Draw (initial ["A"; "B"; "C"]%string)] ++ draws
           ++ [Restore; Clear; Print Combining]
           ++ (combine_phase all_decode always_exported ["B"; "C"; "A"]%string).1
           ++ [Restore],
         (combine_phase all_decode always_exported ["B"; "C"; "A"]%string).2).
Proof.
  apply (typed_commands_reach_the_combiner all_decode always_exported
           [TogglePick; MoveDown; MoveDown; TogglePick] [] ["A"; "B"; "C"]%string
           (Editor ["B"; "C"; "A"]%string 2 None)).
  - repeat constructor.
  - vm_compute. reflexivity.
Defined.
